(** * VoiceCloner: the request handlers of [api_server.py]

    A shallow embedding of the text segmenter [chunk_text], the voice
    registry kept in the global [voice_profiles] dictionary, and the three
    handlers [clone_voice], [generate_speech] and [delete_voice], followed
    by the properties the specification states about them.

    Python values are modelled as follows.
    - [str] is a list of Unicode code points; [len] is the list length.
    - [int] is [Z].
    - a float32 sample is a [spec_float] with precision 24 and maximal
      exponent 128, so that a division by zero evaluates as numpy does.
    - a [dict] is an association list in insertion order.
    - a handler is a function from the state of the process to a result
      and a new state; an exception leaves the mutations made before it. *)

From Stdlib Require Import ZArith NArith List Bool Lia String Ascii.
From Stdlib Require Import Floats.SpecFloat DecimalString.
Import ListNotations.

Set Implicit Arguments.

(** ** Strings *)

Definition char := N.
Definition str := list char.

(** The code points of a literal, for writing Python literals down. *)
Definition lit (s : string) : str := map N_of_ascii (list_ascii_of_string s).

Definition len (A : Type) (s : list A) : Z := Z.of_nat (List.length s).

Definition str_eqb (a b : str) : bool :=
  if list_eq_dec N.eq_dec a b then true else false.

(** [bool(s)] of a string or list: true when it is not empty. *)
Definition truthy (A : Type) (s : list A) : bool :=
  match s with [] => false | _ :: _ => true end.

Definition ch_dot : char := 46%N.
Definition ch_bang : char := 33%N.
Definition ch_question : char := 63%N.
Definition ch_space : char := 32%N.

(** The characters [str.strip()] removes: the interpreter's table of
    whitespace code points. *)
Definition isspace (c : char) : bool :=
  ((9 <=? c) && (c <=? 13) || (28 <=? c) && (c <=? 32)
   || (c =? 133) || (c =? 160) || (c =? 5760)
   || (8192 <=? c) && (c <=? 8202)
   || (c =? 8232) || (c =? 8233) || (c =? 8239) || (c =? 8287)
   || (c =? 12288))%N.

Fixpoint lstrip (s : str) : str :=
  match s with
  | [] => []
  | c :: s' => if isspace c then lstrip s' else s
  end.

Fixpoint rstrip (s : str) : str :=
  match s with
  | [] => []
  | c :: s' =>
      match rstrip s' with
      | [] => if isspace c then [] else [c]
      | r => c :: r
      end
  end.

Definition strip (s : str) : str := rstrip (lstrip s).

(** [s.replace(old, new)] for one-character [old] and [new]. *)
Definition replace (old new : char) (s : str) : str :=
  map (fun c => if (c =? old)%N then new else c) s.

(** [s.split(sep)] for a one-character separator. *)
Fixpoint split (sep : char) (s : str) : list str :=
  match s with
  | [] => [[]]
  | c :: s' =>
      if (c =? sep)%N then [] :: split sep s'
      else match split sep s' with
           | [] => [[c]]
           | w :: ws => (c :: w) :: ws
           end
  end.

Fixpoint endswith (s suffix : str) : bool :=
  match s with
  | [] => str_eqb s suffix
  | _ :: s' => str_eqb s suffix || endswith s' suffix
  end.

(** ** The text segmenter *)

Module Segmenter.

(** The body of the [for sentence in sentences] loop of [chunk_text],
    threaded through the two variables it updates. *)
Fixpoint chunk_loop (max_chars : Z) (sentences : list str)
    (chunks : list str) (current_chunk : str) : list str * str :=
  match sentences with
  | [] => (chunks, current_chunk)
  | sentence :: rest =>
      let sentence := strip sentence in
      if negb (truthy sentence) then
        chunk_loop max_chars rest chunks current_chunk
      else if (len current_chunk + len sentence + 2 <=? max_chars)%Z then
        chunk_loop max_chars rest chunks
          (current_chunk ++ sentence ++ lit ". ")
      else
        let chunks :=
          if truthy current_chunk then chunks ++ [strip current_chunk]
          else chunks in
        chunk_loop max_chars rest chunks (sentence ++ lit ". ")
  end.

(** [text.replace('!', '.').replace('?', '.').split('.')] *)
Definition split_sentences (text : str) : list str :=
  split ch_dot (replace ch_question ch_dot (replace ch_bang ch_dot text)).

Definition chunk_text (text : str) (max_chars : Z) : list str :=
  if (len text <=? max_chars)%Z then [text]
  else
    let sentences := split_sentences text in
    let '(chunks, current_chunk) := chunk_loop max_chars sentences [] [] in
    let chunks :=
      if truthy current_chunk then chunks ++ [strip current_chunk]
      else chunks in
    if truthy chunks then chunks else [text].

(** The sentences the loop keeps: the stripped candidates that are not
    empty, in the order of the text. *)
Definition sentences_of (text : str) : list str :=
  filter (@truthy char) (map strip (split_sentences text)).

(** [current_chunk] after the sentences [group] were added to an empty one. *)
Definition accumulated (group : list str) : str :=
  List.concat (map (fun s => s ++ lit ". ") group).

(** The chunk appended for [group]: its sentences, each closed by a full
    stop, with one space between two of them. *)
Fixpoint render (group : list str) : str :=
  match group with
  | [] => []
  | s :: rest =>
      match rest with
      | [] => s ++ lit "."
      | _ :: _ => s ++ lit ". " ++ render rest
      end
  end.

Definition is_delimiter (c : char) : bool :=
  ((c =? ch_dot) || (c =? ch_bang) || (c =? ch_question))%N.

(** A sentence as the loop keeps it: not empty, without whitespace at
    either end, and without a delimiter inside. *)
Definition clean (s : str) : Prop :=
  s <> [] /\ lstrip s = s /\ rstrip s = s
  /\ Forall (fun c => is_delimiter c = false) s.

Definition good_group (group : list str) : Prop :=
  group <> [] /\ Forall clean group.

(** A group the greedy rule may build: it stays within the bound before
    it is trimmed, or it has a single sentence. *)
Definition fits (max_chars : Z) (group : list str) : Prop :=
  (len (accumulated group) <= max_chars)%Z \/ (List.length group <= 1)%nat.

End Segmenter.

Import Segmenter.

(** ** Samples and waveforms *)

Definition float32 := spec_float.
Definition waveform := list float32.

Definition f32_zero : float32 := S754_zero false.
Definition f32_div : float32 -> float32 -> float32 := SFdiv 24 128.
Definition f32_abs : float32 -> float32 := SFabs.

Definition is_nan (x : float32) : bool :=
  match x with S754_nan => true | _ => false end.

Definition is_zero (x : float32) : bool :=
  match x with S754_zero _ => true | _ => false end.

(** [np.maximum] on two samples: a NaN operand wins. *)
Definition np_maximum (a b : float32) : float32 :=
  if is_nan a then a else if is_nan b then b
  else if SFltb a b then b else a.

(** ** Exceptions and results *)

Inductive exn :=
| HTTPException (status_code : Z) (detail : str)
| Exception (message : str).

Inductive result (A : Type) :=
| Ok (a : A)
| Raise (e : exn).

Arguments Ok {A} a.
Arguments Raise {A} e.

(** What a call into a library or the operating system did for one
    request: it returned, or it raised an exception that is not an
    [HTTPException] and whose [str()] is [message]. *)
Inductive outcome (A : Type) :=
| Returns (a : A)
| Raises (message : str).

Arguments Returns {A} a.
Arguments Raises {A} message.

(** ** Dictionaries, in insertion order *)

Module Dict.

Definition dict (V : Type) := list (str * V).

Definition keys (V : Type) (d : dict V) : list str := map fst d.

(** [d.get(k)] *)
Fixpoint get (V : Type) (k : str) (d : dict V) : option V :=
  match d with
  | [] => None
  | (k', v) :: d' => if str_eqb k k' then Some v else get k d'
  end.

(** [k in d] *)
Definition contains (V : Type) (k : str) (d : dict V) : bool :=
  match get k d with Some _ => true | None => false end.

(** [d[k] = v]: an existing key keeps its position, a new one goes last. *)
Fixpoint set (V : Type) (k : str) (v : V) (d : dict V) : dict V :=
  match d with
  | [] => [(k, v)]
  | (k', v') :: d' =>
      if str_eqb k k' then (k', v) :: d' else (k', v') :: set k v d'
  end.

(** [del d[k]] *)
Fixpoint del (V : Type) (k : str) (d : dict V) : dict V :=
  match d with
  | [] => []
  | (k', v') :: d' =>
      if str_eqb k k' then d' else (k', v') :: del k d'
  end.

(** [json.load] of an object given as its members in file order: a
    repeated member name overwrites. *)
Definition of_members (V : Type) (members : list (str * V)) : dict V :=
  fold_left (fun d kv => set (fst kv) (snd kv) d) members [].

End Dict.

Import Dict.

(** ** The state of the process *)

Definition ref_codes := list Z.

Record Profile := {
  id : str;
  file : str;
  codes_file : str;
  reference_text : option str;
  original_filename : str
}.

Record State := {
  voice_profiles : dict Profile;
  (** the .wav files written with [sf.write], by path *)
  wav_files : dict waveform
}.

(** [load_voice_profiles] at import time: [voice_profiles = {}], replaced
    by the contents of profiles.json when the file exists. *)
Definition load_voice_profiles (profiles_json : option (list (str * Profile)))
    (disk : dict waveform) : State :=
  {| voice_profiles :=
       match profiles_json with
       | Some members => of_members members
       | None => []
       end;
     wav_files := disk |}.

(** ** Handlers as state transformers that may raise *)

Definition M (A : Type) : Type := State -> result A * State.

Definition ret (A : Type) (a : A) : M A := fun st => (Ok a, st).

Definition raise (A : Type) (e : exn) : M A := fun st => (Raise e, st).

Definition bind (A B : Type) (m : M A) (k : A -> M B) : M B :=
  fun st =>
    match m st with
    | (Ok a, st') => k a st'
    | (Raise e, st') => (Raise e, st')
    end.

Definition try_except (A : Type) (body : M A) (handler : exn -> M A) : M A :=
  fun st =>
    match body st with
    | (Ok a, st') => (Ok a, st')
    | (Raise e, st') => handler e st'
    end.

Definition external (A : Type) (o : outcome A) : M A :=
  match o with
  | Returns a => ret a
  | Raises message => raise A (Exception message)
  end.

Definition get_state : M State := fun st => (Ok st, st).

Definition modify (f : State -> State) : M unit := fun st => (Ok tt, f st).

Declare Scope py_scope.
Delimit Scope py_scope with py.
Notation "x <- m ;; k" := (bind m (fun x => k))
  (at level 61, m at next level, right associativity) : py_scope.
Notation "m ;;; k" := (bind m (fun _ => k))
  (at level 61, right associativity) : py_scope.
Open Scope py_scope.

(** [np.max(a)]: raises [ValueError] on an array without elements. *)
Definition np_max (a : waveform) : M float32 :=
  match a with
  | [] =>
      raise float32 (Exception (lit
        "zero-size array to reduction operation maximum which has no identity"))
  | x :: xs => ret (fold_left np_maximum xs x)
  end.

(** [sf.write(path, data, 24000)] *)
Definition sf_write (o : outcome unit) (path : str) (data : waveform)
    : M unit :=
  external o ;;;
  modify (fun st => {| voice_profiles := voice_profiles st;
                       wav_files := set path data (wav_files st) |}).

(** [save_voice_profiles]: the dump of the dictionary to profiles.json. *)
Definition save_voice_profiles (json_dump : outcome unit) : M unit :=
  external json_dump.

(** ** What the handlers answer *)

Record CloneResponse := {
  cr_status : str;
  cr_message : str;
  cr_voice_id : str;
  cr_voice_name : str
}.

Record FileResponse := {
  fr_path : str;
  fr_media_type : str;
  fr_filename : str
}.

Record VoiceEntry := {
  ve_name : str;
  ve_id : str;
  ve_original_file : str;
  ve_has_reference_text : bool
}.

Record DeleteResponse := {
  dr_status : str;
  dr_message : str
}.

(** ** The outcomes of the external calls of one request *)

Record CloneEnv := {
  uuid4 : str;
  write_temp : outcome unit;
  librosa_load : outcome waveform;
  c_sf_write : outcome unit;
  c_os_remove : outcome unit;
  c_init_tts : outcome unit;
  encode_reference : outcome ref_codes;
  torch_save : outcome unit;
  c_json_dump : outcome unit
}.

Record GenerateEnv := {
  g_init_tts : outcome unit;
  torch_load : str -> outcome ref_codes;
  (** the call number, then the arguments of [tts.infer] *)
  infer : nat -> str -> ref_codes -> option str -> outcome waveform;
  g_uuid4 : str;
  g_sf_write : outcome unit
}.

Record DeleteEnv := {
  d_remove_file : outcome unit;
  d_codes_exists : bool;
  d_remove_codes : outcome unit;
  d_json_dump : outcome unit
}.

Definition VOICES_DIR : str := lit "/app/voices".
Definition OUTPUTS_DIR : str := lit "/app/outputs".

Definition audio_suffixes : list str :=
  [lit ".wav"; lit ".mp3"; lit ".flac"; lit ".ogg"; lit ".webm"].

(** [s.endswith(tuple)] *)
Definition endswith_any (s : str) (suffixes : list str) : bool :=
  existsb (endswith s) suffixes.

Section Handlers.

(** Functions of the interpreter and of the web framework the handlers
    call: [str.lower], [str()] of an [HTTPException], [str(dir / name)] of
    a path, and the [str()] of a list of strings. *)
Variable lower : str -> str.
Variable http_exception_str : Z -> str -> str.
Variable joinpath : str -> str -> str.
Variable str_of_list : list str -> str.

Definition exn_str (e : exn) : str :=
  match e with
  | HTTPException status_code detail => http_exception_str status_code detail
  | Exception message => message
  end.

Definition set_voice_profile (voice_name : str) (p : Profile) : M unit :=
  modify (fun st => {| voice_profiles := set voice_name p (voice_profiles st);
                       wav_files := wav_files st |}).

Definition clone_voice (env : CloneEnv) (filename : str) (voice_name : str)
    (reference_text : option str) : M CloneResponse :=
  try_except
    ((if negb (endswith_any (lower filename) audio_suffixes) then
        raise unit (HTTPException 400
          (lit "Only audio files are supported (wav, mp3, flac, ogg, webm)"))
      else ret tt) ;;;
     let voice_id := uuid4 env in
     let file_path := joinpath VOICES_DIR (voice_id ++ lit ".wav") in
     external (write_temp env) ;;;
     audio <- external (librosa_load env) ;;
     peak <- np_max (map f32_abs audio) ;;
     let audio := map (fun x => f32_div x peak) audio in
     sf_write (c_sf_write env) file_path audio ;;;
     external (c_os_remove env) ;;;
     external (c_init_tts env) ;;;
     codes <- external (encode_reference env) ;;
     let codes_path := joinpath VOICES_DIR (voice_id ++ lit "_codes.pt") in
     external (torch_save env) ;;;
     set_voice_profile voice_name
       {| id := voice_id;
          file := file_path;
          codes_file := codes_path;
          reference_text := reference_text;
          original_filename := filename |} ;;;
     save_voice_profiles (c_json_dump env) ;;;
     ret {| cr_status := lit "success";
            cr_message := lit "Voice '" ++ voice_name ++ lit "' cloned successfully";
            cr_voice_id := voice_id;
            cr_voice_name := voice_name |})
    (fun e =>
       raise CloneResponse
         (HTTPException 500 (lit "Error cloning voice: " ++ exn_str e))).

(** The [for chunk in text_chunks] loop of [generate_speech]; [k] counts
    the calls made to the engine so far. *)
Fixpoint infer_loop (env : GenerateEnv) (codes : ref_codes)
    (ref_text : option str) (text_chunks : list str) (k : nat)
    (audio_segments : list waveform) : M (list waveform) :=
  match text_chunks with
  | [] => ret audio_segments
  | chunk :: rest =>
      chunk_wav <- external (infer env k chunk codes ref_text) ;;
      infer_loop env codes ref_text rest (S k) (audio_segments ++ [chunk_wav])
  end.

(** The [if output_filename is None ... elif ...] of [generate_speech]. *)
Definition resolve_output_filename (env : GenerateEnv)
    (output_filename : option str) : str :=
  match output_filename with
  | None => g_uuid4 env ++ lit ".wav"
  | Some name =>
      if negb (endswith name (lit ".wav")) then name ++ lit ".wav" else name
  end.

(** The engine answers the calls for [text_chunks], numbered from [k],
    with the waveforms [wavs]. *)
Fixpoint engine_returns (env : GenerateEnv) (codes : ref_codes)
    (ref_text : option str) (text_chunks : list str) (k : nat)
    (wavs : list waveform) : Prop :=
  match text_chunks, wavs with
  | [], [] => True
  | chunk :: rest, w :: wavs' =>
      infer env k chunk codes ref_text = Returns w
      /\ engine_returns env codes ref_text rest (S k) wavs'
  | _, _ => False
  end.

(** [voice_profiles[voice_name]] *)
Definition getitem (voice_name : str) : M Profile :=
  st <- get_state ;;
  match get voice_name (voice_profiles st) with
  | Some p => ret p
  | None => raise Profile (Exception voice_name)
  end.

Definition generate_speech (env : GenerateEnv) (text : str)
    (voice_name : str) (output_filename : option str) : M FileResponse :=
  try_except
    (st <- get_state ;;
     (if negb (contains voice_name (voice_profiles st)) then
        raise unit (HTTPException 404
          (lit "Voice '" ++ voice_name ++ lit "' not found. Available voices: "
             ++ str_of_list (keys (voice_profiles st))))
      else ret tt) ;;;
     external (g_init_tts env) ;;;
     profile <- getitem voice_name ;;
     codes <- external (torch_load env (codes_file profile)) ;;
     let ref_text := reference_text profile in
     let text_chunks := chunk_text text 200 in
     audio_segments <- infer_loop env codes ref_text text_chunks 0 [] ;;
     wav <- (if (1 <? len audio_segments)%Z then ret (List.concat audio_segments)
             else match audio_segments with
                  | w :: _ => ret w
                  | [] => raise waveform (Exception (lit "list index out of range"))
                  end) ;;
     let output_filename := resolve_output_filename env output_filename in
     let output_path := joinpath OUTPUTS_DIR output_filename in
     sf_write (g_sf_write env) output_path wav ;;;
     ret {| fr_path := output_path;
            fr_media_type := lit "audio/wav";
            fr_filename := output_filename |})
    (fun e =>
       match e with
       | HTTPException _ _ => raise FileResponse e
       | Exception _ =>
           raise FileResponse
             (HTTPException 500 (lit "Error generating speech: " ++ exn_str e))
       end).

Definition list_voices (st : State) : list VoiceEntry :=
  map (fun item =>
         let '(name, profile) := item in
         {| ve_name := name;
            ve_id := id profile;
            ve_original_file := original_filename profile;
            ve_has_reference_text :=
              match reference_text profile with
              | Some _ => true
              | None => false
              end |})
      (voice_profiles st).

(** The [try] block of [delete_voice] that removes the two files. *)
Definition remove_files (env : DeleteEnv) (profile : Profile) : M unit :=
  st <- get_state ;;
  (if contains (file profile) (wav_files st) then
     external (d_remove_file env) ;;;
     modify (fun st => {| voice_profiles := voice_profiles st;
                          wav_files := del (file profile) (wav_files st) |})
   else ret tt) ;;;
  (if d_codes_exists env then external (d_remove_codes env) else ret tt).

Definition delete_voice (env : DeleteEnv) (voice_name : str)
    : M DeleteResponse :=
  st <- get_state ;;
  (if negb (contains voice_name (voice_profiles st)) then
     raise unit (HTTPException 404
       (lit "Voice '" ++ voice_name ++ lit "' not found"))
   else ret tt) ;;;
  profile <- getitem voice_name ;;
  try_except (remove_files env profile) (fun _ => ret tt) ;;;
  modify (fun st => {| voice_profiles := del voice_name (voice_profiles st);
                       wav_files := wav_files st |}) ;;;
  save_voice_profiles (d_json_dump env) ;;;
  ret {| dr_status := lit "success";
         dr_message := lit "Voice '" ++ voice_name ++ lit "' deleted" |}.

(** The lookup [generate_speech] makes before it uses a voice. *)
Definition get_voice (voice_name : str) (st : State) : option Profile :=
  if contains voice_name (voice_profiles st)
  then get voice_name (voice_profiles st) else None.

(** One request that can change the state. *)
Inductive step : State -> State -> Prop :=
| step_clone env filename voice_name reference_text st :
    step st (snd (clone_voice env filename voice_name reference_text st))
| step_generate env text voice_name output_filename st :
    step st (snd (generate_speech env text voice_name output_filename st))
| step_delete env voice_name st :
    step st (snd (delete_voice env voice_name st)).

(** The states of a process: the one after start-up, and those a request
    leads to. *)
Inductive reachable : State -> Prop :=
| reachable_start profiles_json disk :
    reachable (load_voice_profiles profiles_json disk)
| reachable_step st st' :
    reachable st -> step st st' -> reachable st'.

(** A computation keeps a property of the state, however it ends. *)
Definition preserves (A : Type) (P : State -> Prop) (m : M A) : Prop :=
  forall st, P st -> P (snd (m st)).

(** No two entries of the registry have the same name. *)
Definition registry_wf (st : State) : Prop :=
  NoDup (keys (voice_profiles st)).

End Handlers.

(** ** The runtime on plain inputs

    What the four functions taken as variables above compute on ASCII
    file names and on names without quotes, for running the handlers on
    examples. *)

Definition ascii_lower (s : str) : str :=
  map (fun c => if ((65 <=? c) && (c <=? 90))%N then (c + 32)%N else c) s.

Definition decimal (z : Z) : str :=
  lit (DecimalString.NilEmpty.string_of_int (Z.to_int z)).

Definition starlette_str (status_code : Z) (detail : str) : str :=
  decimal status_code ++ lit ": " ++ detail.

Definition posix_join (dir name : str) : str := dir ++ lit "/" ++ name.

Fixpoint join (sep : str) (l : list str) : str :=
  match l with
  | [] => []
  | [x] => x
  | x :: rest => x ++ sep ++ join sep rest
  end.

Definition repr_list (l : list str) : str :=
  lit "[" ++ join (lit ", ") (map (fun x => lit "'" ++ x ++ lit "'") l)
  ++ lit "]".

(** A request for which every external call returns. *)
Definition clone_env_ok (voice_id : str) (audio : waveform)
    (codes : ref_codes) : CloneEnv :=
  {| uuid4 := voice_id;
     write_temp := Returns tt;
     librosa_load := Returns audio;
     c_sf_write := Returns tt;
     c_os_remove := Returns tt;
     c_init_tts := Returns tt;
     encode_reference := Returns codes;
     torch_save := Returns tt;
     c_json_dump := Returns tt |}.

(** The state of a process started without a profiles.json. *)
Definition empty_state : State := load_voice_profiles None [].

Definition f32_one : float32 := S754_finite false 8388608 (-23).
Definition f32_half : float32 := S754_finite false 8388608 (-24).

(** A registry with the one voice "voice1". *)
Definition voice1 : Profile :=
  {| id := lit "id1";
     file := lit "/app/voices/id1.wav";
     codes_file := lit "/app/voices/id1_codes.pt";
     reference_text := Some (lit "hello there");
     original_filename := lit "me.wav" |}.

Definition voice1_state : State :=
  {| voice_profiles := [(lit "voice1", voice1)]; wav_files := [] |}.

(** Three sentences of 150 characters each: three chunks under the bound
    of 200. *)
Definition three_sentences : str :=
  repeat 97%N 150 ++ lit ". " ++ repeat 98%N 150 ++ lit ". "
  ++ repeat 99%N 150 ++ lit ".".

(** An engine double that answers call [k] with [k + 1] samples, and one
    that fails on its second call. *)
Definition engine_ok : GenerateEnv :=
  {| g_init_tts := Returns tt;
     torch_load := fun _ => Returns [7%Z; 8%Z];
     infer := fun k _ _ _ =>
       Returns (repeat (match k with O => f32_one | _ => f32_half end) (S k));
     g_uuid4 := lit "out1";
     g_sf_write := Returns tt |}.

Definition engine_fails_second : GenerateEnv :=
  {| g_init_tts := Returns tt;
     torch_load := fun _ => Returns [7%Z; 8%Z];
     infer := fun k _ _ _ =>
       match k with
       | 1%nat => Raises (lit "CUDA out of memory")
       | _ => Returns (repeat f32_one (S k))
       end;
     g_uuid4 := lit "out1";
     g_sf_write := Returns tt |}.

(** ** The remaining endpoints and the engine handle *)

(** [os.getenv(name, default)] over the environment of the process. *)
Definition getenv (environ : dict str) (name default : str) : str :=
  match get name environ with
  | Some value => value
  | None => default
  end.

(** [init_tts]: the global [tts] before the call, the outcome the
    constructor [NeuTTSAir] would have for its four arguments; the result
    and the global after the call. *)
Definition init_tts (Engine : Type) (environ : dict str)
    (NeuTTSAir : str -> str -> str -> str -> outcome Engine)
    (tts : option Engine) : result Engine * option Engine :=
  match tts with
  | None =>
      let backbone_device := getenv environ (lit "BACKBONE_DEVICE") (lit "cpu") in
      let codec_device := getenv environ (lit "CODEC_DEVICE") (lit "cpu") in
      match NeuTTSAir (lit "neuphonic/neutts-air") backbone_device
              (lit "neuphonic/neucodec") codec_device with
      | Returns engine => (Ok engine, Some engine)
      | Raises message => (Raise (Exception message), None)
      end
  | Some engine => (Ok engine, Some engine)
  end.

Record StatusResponse := {
  sr_status : str;
  sr_service : str;
  sr_voices : Z
}.

Definition api_status (st : State) : StatusResponse :=
  {| sr_status := lit "running";
     sr_service := lit "NeuTTS Air Voice Cloning API";
     sr_voices := len (voice_profiles st) |}.

Record HealthResponse := {
  hr_status : str;
  hr_tts_initialized : bool;
  hr_voices_count : Z;
  hr_backbone_device : str;
  hr_codec_device : str
}.

Definition health_check (Engine : Type) (environ : dict str)
    (tts : option Engine) (st : State) : HealthResponse :=
  {| hr_status := lit "healthy";
     hr_tts_initialized := match tts with Some _ => true | None => false end;
     hr_voices_count := len (voice_profiles st);
     hr_backbone_device := getenv environ (lit "BACKBONE_DEVICE") (lit "cpu");
     hr_codec_device := getenv environ (lit "CODEC_DEVICE") (lit "cpu") |}.

(** ** Notions for the further properties *)

(** The first sentence of [next] did not fit after [group]: the test of
    the loop, [len(current_chunk) + len(sentence) + 2 <= max_chars],
    failed for it. *)
Definition overflows (max_chars : Z) (group next : list str) : Prop :=
  match next with
  | [] => True
  | s :: _ => (max_chars < len (accumulated group) + len s + 2)%Z
  end.

(** Every group but the last was closed because the next sentence did
    not fit. *)
Fixpoint greedy (max_chars : Z) (groups : list (list str)) : Prop :=
  match groups with
  | [] => True
  | g :: rest =>
      match rest with
      | [] => True
      | g' :: _ => overflows max_chars g g' /\ greedy max_chars rest
      end
  end.

(** A computation that never changes the state. *)
Definition quiet (A : Type) (m : M A) : Prop :=
  forall st, snd (m st) = st.


(** * Properties *)

Unset Implicit Arguments.

(** ** Strings *)

Lemma len_app (A : Type) (a b : list A) : len (a ++ b) = (len a + len b)%Z.
Proof. unfold len. rewrite length_app. lia. Qed.

Lemma len_nonneg (A : Type) (a : list A) : (0 <= len a)%Z.
Proof. unfold len. lia. Qed.

Lemma truthy_false (A : Type) (s : list A) : truthy s = false <-> s = [].
Proof. destruct s; simpl; split; congruence. Qed.

Lemma truthy_true (A : Type) (s : list A) : truthy s = true <-> s <> [].
Proof. destruct s; simpl; split; congruence. Qed.

Lemma str_eqb_eq (a b : str) : str_eqb a b = true <-> a = b.
Proof. unfold str_eqb. destruct (list_eq_dec N.eq_dec a b); split; congruence. Qed.

Lemma str_eqb_refl (a : str) : str_eqb a a = true.
Proof. apply str_eqb_eq. reflexivity. Qed.

Lemma str_eqb_neq (a b : str) : str_eqb a b = false <-> a <> b.
Proof. unfold str_eqb. destruct (list_eq_dec N.eq_dec a b); split; congruence. Qed.

Lemma lstrip_length (s : str) : (List.length (lstrip s) <= List.length s)%nat.
Proof.
  induction s as [|c s IH]; simpl; [lia|].
  destruct (isspace c); simpl; lia.
Qed.

Lemma lstrip_fixed_head (c : char) (s : str) :
  lstrip (c :: s) = c :: s -> isspace c = false.
Proof.
  simpl. destruct (isspace c); [|reflexivity].
  intros H. pose proof (lstrip_length s) as L. rewrite H in L. simpl in L. lia.
Qed.

Lemma lstrip_head (s : str) :
  match lstrip s with [] => True | c :: _ => isspace c = false end.
Proof.
  induction s as [|c s IH]; simpl; [exact I|].
  destruct (isspace c) eqn:E; [exact IH | exact E].
Qed.

Lemma lstrip_idem (s : str) : lstrip (lstrip s) = lstrip s.
Proof.
  pose proof (lstrip_head s) as H. destruct (lstrip s) as [|c r]; [reflexivity|].
  simpl. rewrite H. reflexivity.
Qed.

Lemma lstrip_spaces_app (p s : str) :
  Forall (fun c => isspace c = true) p -> lstrip (p ++ s) = lstrip s.
Proof.
  induction 1 as [|c p Hc _ IH]; simpl; [reflexivity|]. rewrite Hc. exact IH.
Qed.

Lemma lstrip_app_fixed (s t : str) :
  s <> [] -> lstrip s = s -> lstrip (s ++ t) = s ++ t.
Proof.
  destruct s as [|c s]; [congruence|]. intros _ H.
  apply lstrip_fixed_head in H. simpl. rewrite H. reflexivity.
Qed.

Lemma rstrip_snoc_keep (x : str) (c : char) :
  isspace c = false -> rstrip (x ++ [c]) = x ++ [c].
Proof.
  intros Hc. induction x as [|a x IH]; simpl.
  - rewrite Hc. reflexivity.
  - rewrite IH. destruct (x ++ [c]) eqn:E; [|reflexivity].
    destruct x; discriminate.
Qed.

Lemma rstrip_snoc_drop (x : str) (c : char) :
  isspace c = true -> rstrip (x ++ [c]) = rstrip x.
Proof.
  intros Hc. induction x as [|a x IH]; simpl.
  - rewrite Hc. reflexivity.
  - rewrite IH. reflexivity.
Qed.

Lemma rstrip_idem (s : str) : rstrip (rstrip s) = rstrip s.
Proof.
  induction s as [|c s IH]; simpl; [reflexivity|].
  destruct (rstrip s) as [|a r] eqn:E.
  - destruct (isspace c) eqn:Hc; simpl; [reflexivity|]. rewrite Hc. reflexivity.
  - change (rstrip (c :: a :: r)) with
      (match rstrip (a :: r) with [] => if isspace c then [] else [c]
                             | x => c :: x end).
    rewrite IH. reflexivity.
Qed.

Lemma rstrip_cons_keep (c : char) (s : str) :
  isspace c = false -> exists r, rstrip (c :: s) = c :: r.
Proof.
  intros Hc. simpl. destruct (rstrip s) as [|a r].
  - rewrite Hc. eauto.
  - eauto.
Qed.

Lemma lstrip_rstrip_fixed (s : str) :
  lstrip s = s -> lstrip (rstrip s) = rstrip s.
Proof.
  destruct s as [|c s]; [reflexivity|]. intros H.
  apply lstrip_fixed_head in H.
  destruct (rstrip_cons_keep c s H) as [r ->]. simpl. rewrite H. reflexivity.
Qed.

Lemma lstrip_Forall (P : char -> Prop) (s : str) :
  Forall P s -> Forall P (lstrip s).
Proof.
  induction 1 as [|c s Hc Hs IH]; simpl; [constructor|].
  destruct (isspace c); [exact IH | constructor; assumption].
Qed.

Lemma rstrip_Forall (P : char -> Prop) (s : str) :
  Forall P s -> Forall P (rstrip s).
Proof.
  induction 1 as [|c s Hc Hs IH]; simpl; [constructor|].
  destruct (rstrip s).
  - destruct (isspace c); constructor; [assumption | constructor].
  - constructor; assumption.
Qed.

Lemma strip_Forall (P : char -> Prop) (s : str) :
  Forall P s -> Forall P (strip s).
Proof. intros H. apply rstrip_Forall, lstrip_Forall, H. Qed.

Lemma strip_fixed (s : str) :
  lstrip (strip s) = strip s /\ rstrip (strip s) = strip s.
Proof.
  unfold strip. split.
  - apply lstrip_rstrip_fixed, lstrip_idem.
  - apply rstrip_idem.
Qed.

Lemma strip_spaces_app (p s : str) :
  Forall (fun c => isspace c = true) p ->
  lstrip s = s -> rstrip s = s -> strip (p ++ s) = s.
Proof.
  intros Hp Hl Hr. unfold strip. rewrite (lstrip_spaces_app p s Hp), Hl. exact Hr.
Qed.

Lemma strip_spaces (p : str) :
  Forall (fun c => isspace c = true) p -> strip p = [].
Proof.
  intros Hp. unfold strip. rewrite <- (app_nil_r p).
  rewrite (lstrip_spaces_app p [] Hp). reflexivity.
Qed.

Lemma replace_avoids (old new : char) (s : str) :
  new <> old -> Forall (fun c => c <> old) (replace old new s).
Proof.
  intros Hn. unfold replace. apply Forall_forall. intros c Hc.
  apply in_map_iff in Hc. destruct Hc as [a [<- _]].
  destruct (N.eqb_spec a old); assumption.
Qed.

Lemma replace_Forall (P : char -> Prop) (old new : char) (s : str) :
  P new -> Forall P s -> Forall P (replace old new s).
Proof.
  intros Hn Hs. unfold replace. induction Hs as [|c s Hc _ IH]; simpl.
  - constructor.
  - constructor; [destruct (c =? old)%N; assumption | exact IH].
Qed.

Lemma replace_absent (old new : char) (s : str) :
  Forall (fun c => c <> old) s -> replace old new s = s.
Proof.
  unfold replace. induction 1 as [|c s Hc _ IH]; simpl; [reflexivity|].
  rewrite IH. destruct (N.eqb_spec c old); congruence.
Qed.

Lemma split_nonempty (sep : char) (s : str) : split sep s <> [].
Proof.
  induction s as [|c s IH]; simpl; [discriminate|].
  destruct (c =? sep)%N; [discriminate|].
  destruct (split sep s); discriminate.
Qed.

Lemma split_Forall (P : char -> Prop) (sep : char) (s : str) :
  Forall P s -> Forall (Forall (fun c => P c /\ c <> sep)) (split sep s).
Proof.
  induction 1 as [|c s Hc _ IH]; simpl.
  - repeat constructor.
  - destruct (N.eqb_spec c sep) as [_|Hne].
    + constructor; [constructor | exact IH].
    + destruct (split sep s) as [|w ws]; [repeat constructor; assumption|].
      inversion IH; subst. constructor; [|assumption].
      constructor; [split|]; assumption.
Qed.

Lemma split_at_sep (sep : char) (a b : str) :
  Forall (fun c => c <> sep) a -> split sep (a ++ sep :: b) = a :: split sep b.
Proof.
  induction 1 as [|c a Hc _ IH]; simpl.
  - rewrite N.eqb_refl. reflexivity.
  - rewrite IH. destruct (N.eqb_spec c sep); [contradiction | reflexivity].
Qed.

(** ** The text segmenter *)

Lemma lit_dot_space : lit ". " = [ch_dot; ch_space].
Proof. reflexivity. Qed.

Lemma lit_dot : lit "." = [ch_dot].
Proof. reflexivity. Qed.

Lemma is_delimiter_false (c : char) :
  is_delimiter c = false <-> c <> ch_dot /\ c <> ch_bang /\ c <> ch_question.
Proof.
  unfold is_delimiter.
  destruct (N.eqb_spec c ch_dot), (N.eqb_spec c ch_bang),
    (N.eqb_spec c ch_question); simpl; intuition congruence.
Qed.

Lemma split_sentences_no_delimiter (text : str) :
  Forall (Forall (fun c => is_delimiter c = false)) (split_sentences text).
Proof.
  unfold split_sentences.
  set (r := replace ch_question ch_dot (replace ch_bang ch_dot text)).
  assert (Hr : Forall (fun c => c <> ch_bang /\ c <> ch_question) r).
  { apply Forall_forall. intros c Hc. split.
    - revert c Hc. apply Forall_forall. apply replace_Forall; [discriminate|].
      apply replace_avoids. discriminate.
    - revert c Hc. apply Forall_forall. apply replace_avoids. discriminate. }
  eapply Forall_impl; [|apply (split_Forall _ ch_dot r Hr)].
  intros w Hw. eapply Forall_impl; [|exact Hw].
  intros c [[H1 H2] H3]. apply is_delimiter_false. auto.
Qed.

Lemma strip_clean (s : str) :
  Forall (fun c => is_delimiter c = false) s ->
  truthy (strip s) = true -> clean (strip s).
Proof.
  intros Hd Ht. destruct (strip_fixed s) as [Hl Hr].
  repeat split; try assumption.
  - apply truthy_true, Ht.
  - apply strip_Forall, Hd.
Qed.

Lemma chunk_loop_cons (max_chars : Z) (cand : str) (rest chunks : list str)
    (current : str) :
  chunk_loop max_chars (cand :: rest) chunks current =
  if negb (truthy (strip cand)) then chunk_loop max_chars rest chunks current
  else if (len current + len (strip cand) + 2 <=? max_chars)%Z then
    chunk_loop max_chars rest chunks (current ++ strip cand ++ lit ". ")
  else
    chunk_loop max_chars rest
      (if truthy current then chunks ++ [strip current] else chunks)
      (strip cand ++ lit ". ").
Proof. reflexivity. Qed.

Lemma accumulated_snoc (g : list str) (s : str) :
  accumulated (g ++ [s]) = accumulated g ++ s ++ lit ". ".
Proof.
  unfold accumulated. rewrite map_app, concat_app. simpl.
  rewrite app_nil_r. reflexivity.
Qed.

Lemma accumulated_single (s : str) : accumulated [s] = s ++ lit ". ".
Proof. unfold accumulated. simpl. apply app_nil_r. Qed.

Lemma truthy_accumulated (g : list str) :
  truthy (accumulated g) = truthy g.
Proof.
  destruct g as [|s g]; [reflexivity|].
  unfold accumulated. simpl. destruct s; reflexivity.
Qed.

Lemma accumulated_render (g : list str) :
  g <> [] -> accumulated g = render g ++ [ch_space].
Proof.
  induction g as [|s g IH]; [congruence|]. intros _.
  destruct g as [|s2 g].
  - rewrite accumulated_single. simpl. rewrite lit_dot, lit_dot_space.
    rewrite <- app_assoc. reflexivity.
  - change (accumulated (s :: s2 :: g))
      with ((s ++ lit ". ") ++ accumulated (s2 :: g)).
    rewrite IH by discriminate.
    change (render (s :: s2 :: g)) with (s ++ lit ". " ++ render (s2 :: g)).
    rewrite <- !app_assoc. reflexivity.
Qed.

Lemma render_ends_with_dot (g : list str) :
  g <> [] -> exists y, render g = y ++ [ch_dot].
Proof.
  induction g as [|s g IH]; [congruence|]. intros _.
  destruct g as [|s2 g].
  - exists s. reflexivity.
  - destruct IH as [y Hy]; [discriminate|].
    exists (s ++ lit ". " ++ y).
    change (render (s :: s2 :: g)) with (s ++ lit ". " ++ render (s2 :: g)).
    rewrite Hy, <- !app_assoc. reflexivity.
Qed.

Lemma render_starts (g : list str) :
  good_group g -> exists s t, clean s /\ render g = s ++ t /\ In s g.
Proof.
  intros [Hne Hc]. destruct g as [|s g]; [congruence|].
  inversion Hc; subst.
  destruct g as [|s2 g].
  - exists s, (lit "."). simpl. auto.
  - exists s, (lit ". " ++ render (s2 :: g)). simpl. auto.
Qed.

Lemma render_fixed (g : list str) :
  good_group g ->
  render g <> [] /\ lstrip (render g) = render g /\ rstrip (render g) = render g.
Proof.
  intros Hg. destruct (render_starts g Hg) as [s [t [[Hs [Hl _]] [E _]]]].
  destruct (render_ends_with_dot g (proj1 Hg)) as [y Hy].
  split; [|split].
  - rewrite Hy. destruct y; discriminate.
  - rewrite E. apply lstrip_app_fixed; assumption.
  - rewrite Hy. apply rstrip_snoc_keep. reflexivity.
Qed.

Lemma strip_accumulated (g : list str) :
  good_group g -> strip (accumulated g) = render g.
Proof.
  intros Hg. destruct (render_fixed g Hg) as [Hne [Hl Hr]].
  rewrite (accumulated_render g (proj1 Hg)). unfold strip.
  rewrite lstrip_app_fixed by assumption.
  rewrite rstrip_snoc_drop by reflexivity. exact Hr.
Qed.

Lemma len_render (g : list str) :
  g <> [] -> len (render g) = (len (accumulated g) - 1)%Z.
Proof.
  intros Hg. rewrite (accumulated_render g Hg), len_app.
  unfold len at 3. simpl. lia.
Qed.

Lemma fits_single (max_chars : Z) (s : str) : fits max_chars [s].
Proof. right. simpl. lia. Qed.

Lemma fits_nil (max_chars : Z) : fits max_chars [].
Proof. right. simpl. lia. Qed.

(** The loop keeps its two variables in the shape of rendered groups of
    clean sentences, and consumes the sentences in order. *)
Lemma chunk_loop_groups (max_chars : Z) (cands : list str) :
  Forall (Forall (fun c => is_delimiter c = false)) cands ->
  forall groups g,
    Forall good_group groups -> Forall clean g ->
    Forall (fits max_chars) groups -> fits max_chars g ->
    exists groups' g',
      chunk_loop max_chars cands (map render groups) (accumulated g)
      = (map render groups', accumulated g')
      /\ Forall good_group groups' /\ Forall clean g'
      /\ Forall (fits max_chars) groups' /\ fits max_chars g'
      /\ List.concat groups' ++ g'
         = List.concat groups ++ g ++ filter (@truthy char) (map strip cands).
Proof.
  induction 1 as [|cand cands Hd _ IH]; intros groups g Hgs Hg Fgs Fg.
  - exists groups, g. simpl. rewrite app_nil_r. auto 10.
  - rewrite chunk_loop_cons. simpl map. simpl filter.
    destruct (truthy (strip cand)) eqn:Ht; simpl negb; cbv iota.
    2:{ apply IH; assumption. }
    pose proof (strip_clean cand Hd Ht) as Hs.
    destruct (len (accumulated g) + len (strip cand) + 2 <=? max_chars)%Z eqn:Hle.
    + rewrite <- accumulated_snoc.
      destruct (IH groups (g ++ [strip cand])) as [groups' [g' [E H']]];
        try assumption.
      * apply Forall_app. split; [assumption | constructor; [assumption | constructor]].
      * left. rewrite accumulated_snoc, !len_app.
        apply Z.leb_le in Hle. unfold len at 3. rewrite lit_dot_space. simpl.
        unfold len in *. lia.
      * exists groups', g'. split; [exact E|].
        rewrite <- app_assoc in H'. exact H'.
    + rewrite <- accumulated_single, truthy_accumulated.
      destruct g as [|s0 g0] eqn:Eg; simpl truthy; cbv iota.
      * destruct (IH groups [strip cand]) as [groups' [g' [E H']]];
          try assumption.
        -- constructor; [assumption | constructor].
        -- apply fits_single.
        -- exists groups', g'. split; [exact E | exact H'].
      * rewrite <- Eg in *.
        assert (Hgood : good_group g) by (split; [rewrite Eg; discriminate | assumption]).
        rewrite (strip_accumulated g Hgood).
        change (map render groups ++ [render g]) with
          (map render groups ++ map render [g]).
        rewrite <- map_app.
        destruct (IH (groups ++ [g]) [strip cand]) as [groups' [g' [E H']]].
        -- apply Forall_app. split; [assumption | constructor; [assumption | constructor]].
        -- constructor; [assumption | constructor].
        -- apply Forall_app. split; [assumption | constructor; [assumption | constructor]].
        -- apply fits_single.
        -- exists groups', g'. split; [exact E|].
           destruct H' as (A & B & C & D & F). repeat split; try assumption.
           rewrite F, concat_app. simpl. rewrite app_nil_r, <- !app_assoc.
           reflexivity.
Qed.

(** On the splitting path the chunks are the rendered groups of a
    partition of the sentences into consecutive groups. *)
Lemma chunk_text_groups (text : str) (max_chars : Z) :
  (max_chars < len text)%Z ->
  exists groups,
    Forall good_group groups /\ Forall (fits max_chars) groups
    /\ List.concat groups = sentences_of text
    /\ chunk_text text max_chars
       = if truthy groups then map render groups else [text].
Proof.
  intros Hlong. unfold chunk_text.
  destruct (len text <=? max_chars)%Z eqn:E; [apply Z.leb_le in E; lia|].
  destruct (chunk_loop_groups max_chars (split_sentences text)
              (split_sentences_no_delimiter text) [] []
              (Forall_nil _) (Forall_nil _) (Forall_nil _) (fits_nil max_chars))
    as [groups [g (Hloop & Hgs & Hg & Fgs & Fg & Hcat)]].
  change (map render []) with (@nil str) in Hloop.
  change (accumulated []) with (@nil char) in Hloop.
  rewrite Hloop. rewrite truthy_accumulated.
  simpl in Hcat. fold (sentences_of text) in Hcat.
  destruct g as [|s0 g0] eqn:Eg; simpl truthy; cbv iota.
  - exists groups. rewrite app_nil_r in Hcat.
    repeat split; try assumption.
    destruct groups; reflexivity.
  - rewrite <- Eg in *.
    assert (Hgood : good_group g) by (split; [rewrite Eg; discriminate | assumption]).
    exists (groups ++ [g]). rewrite (strip_accumulated g Hgood).
    repeat split.
    + apply Forall_app. split; [assumption | constructor; [assumption | constructor]].
    + apply Forall_app. split; [assumption | constructor; [assumption | constructor]].
    + rewrite concat_app. simpl. rewrite app_nil_r. exact Hcat.
    + rewrite map_app. simpl.
      destruct (map render groups ++ [render g]) eqn:E1;
        [destruct (map render groups); discriminate|].
      destruct (groups ++ [g]) eqn:E2; [destruct groups; discriminate|].
      reflexivity.
Qed.

Lemma clean_no_dot (s : str) : clean s -> Forall (fun c => c <> ch_dot) s.
Proof.
  intros (_ & _ & _ & H). eapply Forall_impl; [|exact H].
  intros c Hc. apply is_delimiter_false in Hc. tauto.
Qed.

Lemma render_no_bang (g : list str) :
  Forall clean g ->
  Forall (fun c => c <> ch_bang) (render g)
  /\ Forall (fun c => c <> ch_question) (render g).
Proof.
  induction 1 as [|s g Hs _ IH].
  - split; constructor.
  - assert (Hb : Forall (fun c => c <> ch_bang) s
                 /\ Forall (fun c => c <> ch_question) s).
    { destruct Hs as (_ & _ & _ & H).
      split; (eapply Forall_impl; [|exact H]); intros c Hc;
        apply is_delimiter_false in Hc; tauto. }
    destruct Hb as [Hb Hq], IH as [IHb IHq].
    destruct g as [|s2 g].
    + split; apply Forall_app; split; try assumption;
        repeat constructor; discriminate.
    + change (render (s :: s2 :: g)) with (s ++ lit ". " ++ render (s2 :: g)).
      split; apply Forall_app; split; try assumption;
        apply Forall_app; split; try assumption;
        repeat constructor; discriminate.
Qed.

Lemma split_render (g : list str) :
  Forall clean g -> g <> [] ->
  forall p,
    Forall (fun c => isspace c = true) p -> Forall (fun c => c <> ch_dot) p ->
    filter (@truthy char) (map strip (split ch_dot (p ++ render g))) = g.
Proof.
  induction 1 as [|s g Hs Hg IH]; [congruence|]. intros _ p Hp Hpd.
  assert (Hps : Forall (fun c => c <> ch_dot) (p ++ s)).
  { apply Forall_app. split; [assumption | apply clean_no_dot, Hs]. }
  assert (Est : strip (p ++ s) = s).
  { destruct Hs as (_ & Hl & Hr & _). apply strip_spaces_app; assumption. }
  assert (Ets : truthy s = true) by (apply truthy_true, Hs).
  destruct g as [|s2 g].
  - change (render [s]) with (s ++ [ch_dot]).
    rewrite app_assoc, (split_at_sep ch_dot (p ++ s) [] Hps).
    cbn [split map filter]. rewrite Est, Ets. reflexivity.
  - change (render (s :: s2 :: g))
      with (s ++ ch_dot :: [ch_space] ++ render (s2 :: g)).
    rewrite app_assoc, (split_at_sep ch_dot (p ++ s) _ Hps).
    cbn [map filter]. rewrite Est, Ets. f_equal.
    apply (IH ltac:(discriminate) [ch_space]); repeat constructor.
    discriminate.
Qed.

Lemma sentences_of_render (g : list str) :
  good_group g -> sentences_of (render g) = g.
Proof.
  intros [Hne Hc]. unfold sentences_of, split_sentences.
  destruct (render_no_bang g Hc) as [Hb Hq].
  rewrite (replace_absent ch_bang ch_dot _ Hb).
  rewrite (replace_absent ch_question ch_dot _ Hq).
  apply (split_render g Hc Hne []); constructor.
Qed.

Lemma flat_map_sentences_render (groups : list (list str)) :
  Forall good_group groups ->
  flat_map sentences_of (map render groups) = List.concat groups.
Proof.
  induction 1 as [|g groups Hg _ IH]; [reflexivity|].
  simpl. rewrite (sentences_of_render g Hg), IH. reflexivity.
Qed.

(** C3. A text no longer than [max_chars] comes back as the single chunk
    [text], character for character. *)
Theorem segmenter_identity (text : str) (max_chars : Z) :
  (len text <= max_chars)%Z -> chunk_text text max_chars = [text].
Proof.
  intros H. unfold chunk_text. apply Z.leb_le in H. rewrite H. reflexivity.
Qed.

Lemma segmenter_identity_witness :
  (len (lit "Hello world! How are you?") <= 200)%Z
  /\ chunk_text (lit "Hello world! How are you?") 200
     = [lit "Hello world! How are you?"].
Proof.
  split; [vm_compute; discriminate|].
  apply (segmenter_identity (lit "Hello world! How are you?") 200).
  vm_compute. discriminate.
Defined.

(** C2, as stated, fails: with a bound of 3 the text "a.bcd" gives the
    chunks "a." and "bcd."; the second has 4 characters although no
    sentence of the text has more than 3. *)
Lemma segmenter_bound_counterexample :
  chunk_text (lit "a.bcd") 3 = [lit "a."; lit "bcd."]
  /\ sentences_of (lit "a.bcd") = [lit "a"; lit "bcd"]
  /\ ~ (forall c, In c (chunk_text (lit "a.bcd") 3) ->
          (len c <= 3)%Z
          \/ exists s, In s (sentences_of (lit "a.bcd")) /\ (3 < len s)%Z).
Proof.
  split; [reflexivity|]. split; [reflexivity|].
  intros H. destruct (H (lit "bcd.")) as [Hlen | [s [Hin Hs]]].
  - right. left. reflexivity.
  - vm_compute in Hlen. apply Hlen. reflexivity.
  - destruct Hin as [<- | [<- | []]]; vm_compute in Hs; discriminate.
Qed.

(** C2, amended. Every chunk has at most [max_chars] characters, except
    a chunk made of one sentence [s], which is [s] followed by a full stop
    and so is longer than the bound as soon as [len s >= max_chars], and
    except the whole text returned when it has no sentence at all. *)
Theorem segmenter_bound (text : str) (max_chars : Z) (c : str) :
  In c (chunk_text text max_chars) ->
  (len c <= max_chars)%Z
  \/ (exists s, In s (sentences_of text) /\ c = s ++ lit "."
                /\ (max_chars <= len s)%Z)
  \/ (sentences_of text = [] /\ c = text).
Proof.
  intros Hin.
  destruct (Z_le_gt_dec (len text) max_chars) as [Hshort | Hlong].
  - rewrite (segmenter_identity text max_chars Hshort) in Hin.
    destruct Hin as [<- | []]. left. exact Hshort.
  - destruct (chunk_text_groups text max_chars) as [groups (Hg & Hf & Hcat & E)];
      [lia|].
    rewrite E in Hin. destruct (truthy groups) eqn:T.
    2:{ apply truthy_false in T. subst groups.
        destruct Hin as [<- | []]. right. right.
        split; [symmetry; exact Hcat | reflexivity]. }
    + apply in_map_iff in Hin. destruct Hin as [g [<- Hgin]].
      pose proof (proj1 (Forall_forall _ _) Hg g Hgin) as [Hne Hcl].
      pose proof (proj1 (Forall_forall _ _) Hf g Hgin) as [Hfit | Hone].
      * left. rewrite (len_render g Hne). lia.
      * destruct g as [|s [|s2 g]]; [congruence | | simpl in Hone; lia].
        change (render [s]) with (s ++ lit ".").
        destruct (Z_le_gt_dec (len (s ++ lit ".")) max_chars) as [Hs | Hs];
          [left; exact Hs|].
        right. left. exists s. repeat split.
        -- rewrite <- Hcat. apply in_concat. exists [s]. split; [exact Hgin|].
           left. reflexivity.
        -- rewrite len_app in Hs. change (len (lit ".")) with 1%Z in Hs. lia.
Qed.

Lemma segmenter_bound_witness :
  In (lit "bcd.") (chunk_text (lit "a.bcd") 3)
  /\ ((len (lit "bcd.") <= 3)%Z
      \/ (exists s, In s (sentences_of (lit "a.bcd"))
                    /\ lit "bcd." = s ++ lit "." /\ (3 <= len s)%Z)
      \/ (sentences_of (lit "a.bcd") = [] /\ lit "bcd." = lit "a.bcd")).
Proof.
  assert (H : In (lit "bcd.") (chunk_text (lit "a.bcd") 3))
    by (right; left; reflexivity).
  split; [exact H|].
  exact (segmenter_bound (lit "a.bcd") 3 (lit "bcd.") H).
Defined.

(** C4. Splitting the chunks into sentences again gives the sentences of
    the text, each once and in the order of the text; the chunks are the
    text itself, or consecutive groups of its sentences in which every
    sentence is followed by a full stop and a space separates two. *)
Theorem segmenter_coverage (text : str) (max_chars : Z) :
  flat_map sentences_of (chunk_text text max_chars) = sentences_of text
  /\ (chunk_text text max_chars = [text]
      \/ exists groups,
           Forall good_group groups
           /\ List.concat groups = sentences_of text
           /\ chunk_text text max_chars = map render groups).
Proof.
  assert (Hwhole : flat_map sentences_of [text] = sentences_of text)
    by (simpl; apply app_nil_r).
  destruct (Z_le_gt_dec (len text) max_chars) as [Hshort | Hlong].
  - rewrite (segmenter_identity text max_chars Hshort). auto.
  - destruct (chunk_text_groups text max_chars) as [groups (Hg & _ & Hcat & E)];
      [lia|].
    rewrite E. destruct (truthy groups) eqn:T; [|auto]. split.
    + rewrite (flat_map_sentences_render groups Hg). exact Hcat.
    + right. exists groups. auto.
Qed.

(** C10. When the text is longer than the bound and has a sentence,
    every chunk is non-empty, has no whitespace at either end, and ends
    with a full stop. *)
Theorem segmenter_chunk_shape (text : str) (max_chars : Z) (c : str) :
  (max_chars < len text)%Z -> sentences_of text <> [] ->
  In c (chunk_text text max_chars) ->
  c <> [] /\ lstrip c = c /\ rstrip c = c /\ strip c = c
  /\ (exists y, c = y ++ lit ".") /\ endswith c (lit ".") = true.
Proof.
  intros Hlong Hsent Hin.
  destruct (chunk_text_groups text max_chars Hlong) as [groups (Hg & _ & Hcat & E)].
  rewrite E in Hin. destruct (truthy groups) eqn:T.
  2:{ apply truthy_false in T. subst groups. simpl in Hcat. congruence. }
  - apply in_map_iff in Hin. destruct Hin as [g [<- Hgin]].
    pose proof (proj1 (Forall_forall _ _) Hg g Hgin) as Hgood.
    destruct (render_fixed g Hgood) as (Hne & Hl & Hr).
    destruct (render_ends_with_dot g (proj1 Hgood)) as [y Hy].
    repeat split; try assumption.
    + unfold strip. rewrite Hl. exact Hr.
    + exists y. exact Hy.
    + rewrite Hy. clear. induction y as [|a y IH]; [reflexivity|].
      simpl. rewrite IH. apply orb_true_r.
Qed.

Lemma segmenter_chunk_shape_witness :
  (3 < len (lit "a.bcd"))%Z /\ sentences_of (lit "a.bcd") <> []
  /\ In (lit "bcd.") (chunk_text (lit "a.bcd") 3)
  /\ lit "bcd." <> [] /\ strip (lit "bcd.") = lit "bcd."
  /\ endswith (lit "bcd.") (lit ".") = true.
Proof.
  assert (H1 : (3 < len (lit "a.bcd"))%Z) by reflexivity.
  assert (H2 : sentences_of (lit "a.bcd") <> []) by (vm_compute; discriminate).
  assert (H3 : In (lit "bcd.") (chunk_text (lit "a.bcd") 3))
    by (right; left; reflexivity).
  destruct (segmenter_chunk_shape (lit "a.bcd") 3 (lit "bcd.") H1 H2 H3)
    as (A & _ & _ & B & _ & C).
  repeat split; assumption.
Defined.

(** ** Dictionaries *)

Lemma get_set_same (V : Type) (k : str) (v : V) (d : dict V) :
  get k (set k v d) = Some v.
Proof.
  induction d as [|[k' v'] d IH]; simpl.
  - rewrite str_eqb_refl. reflexivity.
  - destruct (str_eqb k k') eqn:E; simpl; rewrite E; [reflexivity | exact IH].
Qed.

Lemma get_None (V : Type) (k : str) (d : dict V) :
  get k d = None <-> ~ In k (keys d).
Proof.
  induction d as [|[k' v'] d IH]; simpl; [tauto|].
  destruct (str_eqb k k') eqn:E.
  - apply str_eqb_eq in E. subst. split; [discriminate | tauto].
  - apply str_eqb_neq in E. rewrite IH. split; [intros H [H1|H1]; auto | tauto].
Qed.

Lemma keys_set (V : Type) (k : str) (v : V) (d : dict V) :
  keys (set k v d) = if contains k d then keys d else keys d ++ [k].
Proof.
  unfold contains. induction d as [|[k' v'] d IH]; simpl; [reflexivity|].
  destruct (str_eqb k k') eqn:E; simpl; [reflexivity|].
  rewrite IH. destruct (get k d); reflexivity.
Qed.

Lemma keys_del_incl (V : Type) (k x : str) (d : dict V) :
  In x (keys (del k d)) -> In x (keys d).
Proof.
  induction d as [|[k' v'] d IH]; simpl; [tauto|].
  destruct (str_eqb k k'); simpl; tauto.
Qed.

Lemma NoDup_keys_set (V : Type) (k : str) (v : V) (d : dict V) :
  NoDup (keys d) -> NoDup (keys (set k v d)).
Proof.
  intros H. rewrite keys_set. unfold contains.
  destruct (get k d) eqn:E; [exact H|].
  apply get_None in E. apply NoDup_app; [exact H | repeat constructor; simpl; tauto|].
  intros x Hx [<- | []]. contradiction.
Qed.

Lemma NoDup_keys_del (V : Type) (k : str) (d : dict V) :
  NoDup (keys d) -> NoDup (keys (del k d)).
Proof.
  induction d as [|[k' v'] d IH]; simpl; [auto|]. intros H.
  inversion H as [|? ? Hnot Hd]; subst.
  destruct (str_eqb k k'); [exact Hd|]. simpl. constructor; [|auto].
  intros Hin. apply Hnot. eapply keys_del_incl, Hin.
Qed.

Lemma get_del_same (V : Type) (k : str) (d : dict V) :
  NoDup (keys d) -> get k (del k d) = None.
Proof.
  induction d as [|[k' v'] d IH]; simpl; [reflexivity|]. intros H.
  inversion H as [|? ? Hnot Hd]; subst.
  destruct (str_eqb k k') eqn:E.
  - apply str_eqb_eq in E. subst. apply get_None, Hnot.
  - simpl. rewrite E. auto.
Qed.

Lemma NoDup_keys_of_members (V : Type) (members : list (str * V)) :
  NoDup (keys (of_members members)).
Proof.
  unfold of_members.
  assert (G : forall d : dict V, NoDup (keys d) ->
            NoDup (keys (fold_left (fun d kv => set (fst kv) (snd kv) d)
                           members d))).
  { induction members as [|kv members IH]; intros d Hd; simpl; [exact Hd|].
    apply IH, NoDup_keys_set, Hd. }
  apply G. constructor.
Qed.

(** With distinct keys, the entries under [k] are the single one [get]
    finds. *)
Lemma filter_key_unique (V : Type) (k : str) (v : V) (d : dict V) :
  NoDup (keys d) -> get k d = Some v ->
  filter (fun kv => str_eqb (fst kv) k) d = [(k, v)].
Proof.
  induction d as [|[k' v'] d IH]; simpl; [discriminate|]. intros H Hget.
  inversion H as [|? ? Hnot Hd]; subst.
  destruct (str_eqb k k') eqn:E.
  - apply str_eqb_eq in E. subst k'. rewrite str_eqb_refl.
    inversion Hget; subst. f_equal.
    clear - Hnot. induction d as [|[k2 v2] d IH]; simpl; [reflexivity|].
    simpl in Hnot. destruct (str_eqb k2 k) eqn:E2.
    + apply str_eqb_eq in E2. tauto.
    + apply IH. tauto.
  - destruct (str_eqb k' k) eqn:E2.
    + apply str_eqb_eq in E2. subst. rewrite str_eqb_refl in E. discriminate.
    + auto.
Qed.

(** ** Running a handler *)

Lemma bind_ok (A B : Type) (m : M A) (k : A -> M B) (st st' : State) (b : B) :
  bind m k st = (Ok b, st') ->
  exists a st1, m st = (Ok a, st1) /\ k a st1 = (Ok b, st').
Proof.
  unfold bind. destruct (m st) as [[a|e] st1]; [eauto | discriminate].
Qed.

Lemma bind_run (A B : Type) (m : M A) (k : A -> M B) (st st1 : State) (a : A) :
  m st = (Ok a, st1) -> bind m k st = k a st1.
Proof. intros H. unfold bind. rewrite H. reflexivity. Qed.

Lemma bind_raise (A B : Type) (m : M A) (k : A -> M B) (st st1 : State)
    (e : exn) :
  m st = (Raise e, st1) -> bind m k st = (Raise e, st1).
Proof. intros H. unfold bind. rewrite H. reflexivity. Qed.

Lemma external_ok (A : Type) (o : outcome A) (st st' : State) (a : A) :
  external o st = (Ok a, st') -> o = Returns a /\ st' = st.
Proof.
  destruct o; simpl; unfold ret, raise; intros H; inversion H; auto.
Qed.

Lemma preserves_ret (A : Type) (P : State -> Prop) (a : A) :
  preserves P (ret a).
Proof. intros st H. exact H. Qed.

Lemma preserves_raise (A : Type) (P : State -> Prop) (e : exn) :
  preserves P (raise A e).
Proof. intros st H. exact H. Qed.

Lemma preserves_external (A : Type) (P : State -> Prop) (o : outcome A) :
  preserves P (external o).
Proof. intros st H. destruct o; exact H. Qed.

Lemma preserves_get_state (P : State -> Prop) : preserves P get_state.
Proof. intros st H. exact H. Qed.

Lemma preserves_modify (P : State -> Prop) (f : State -> State) :
  (forall st, P st -> P (f st)) -> preserves P (modify f).
Proof. intros Hf st H. apply Hf, H. Qed.

Lemma preserves_bind (A B : Type) (P : State -> Prop) (m : M A)
    (k : A -> M B) :
  preserves P m -> (forall a, preserves P (k a)) -> preserves P (bind m k).
Proof.
  intros Hm Hk st H. unfold bind. specialize (Hm st H).
  destruct (m st) as [[a|e] st1]; simpl in *; [apply Hk, Hm | exact Hm].
Qed.

Lemma preserves_try (A : Type) (P : State -> Prop) (body : M A)
    (handler : exn -> M A) :
  preserves P body -> (forall e, preserves P (handler e)) ->
  preserves P (try_except body handler).
Proof.
  intros Hm Hk st H. unfold try_except. specialize (Hm st H).
  destruct (body st) as [[a|e] st1]; simpl in *; [exact Hm | apply Hk, Hm].
Qed.

Create HintDb preserve.

#[local] Hint Resolve preserves_ret preserves_raise preserves_external
  preserves_get_state : preserve.

Ltac preserve :=
  repeat first
    [ solve [auto with preserve]
    | apply preserves_bind; [|intros ?]
    | apply preserves_try; [|intros ?]
    | match goal with
      | |- preserves _ (if ?b then _ else _) => destruct b
      | |- preserves _ (match ?x with _ => _ end) => destruct x
      end ].

Lemma preserves_sf_write (o : outcome unit) (path : str) (data : waveform) :
  preserves registry_wf (sf_write o path data).
Proof.
  unfold sf_write. preserve. apply preserves_modify. auto.
Qed.

Lemma preserves_set_voice_profile (voice_name : str) (p : Profile) :
  preserves registry_wf (set_voice_profile voice_name p).
Proof.
  apply preserves_modify. intros st H. apply NoDup_keys_set, H.
Qed.

Lemma preserves_np_max (a : waveform) : preserves registry_wf (np_max a).
Proof. unfold np_max. preserve. Qed.

#[local] Hint Resolve preserves_sf_write preserves_set_voice_profile
  preserves_np_max : preserve.

(** *** Steps that do not depend on the runtime *)

Lemma preserves_infer_loop (env : GenerateEnv) (codes : ref_codes)
    (ref_text : option str) (text_chunks : list str) :
  forall k audio_segments,
    preserves registry_wf
      (infer_loop env codes ref_text text_chunks k audio_segments).
Proof.
  induction text_chunks as [|chunk rest IH]; intros k acc; simpl.
  - auto with preserve.
  - apply preserves_bind; [auto with preserve | intros w; apply IH].
Qed.

Lemma preserves_getitem (voice_name : str) :
  preserves registry_wf (getitem voice_name).
Proof. unfold getitem. preserve. Qed.

Lemma np_max_zero (audio : waveform) (st : State) :
  audio <> [] -> Forall (fun x => is_zero x = true) audio ->
  np_max (map f32_abs audio) st = (Ok f32_zero, st).
Proof.
  intros Hne Hz. destruct audio as [|x xs]; [congruence|].
  inversion Hz as [|? ? Hx Hxs]; subst. simpl.
  destruct x; try discriminate. unfold ret. f_equal. f_equal. simpl.
  clear - Hxs. induction Hxs as [|y ys Hy _ IH]; [reflexivity|].
  simpl. destruct y; try discriminate. exact IH.
Qed.

Lemma div_zero_by_zero (audio : waveform) :
  Forall (fun x => is_zero x = true) audio ->
  map (fun x => f32_div x f32_zero) audio = map (fun _ => S754_nan) audio.
Proof.
  induction 1 as [|x xs Hx _ IH]; [reflexivity|].
  simpl. rewrite IH. destruct x; try discriminate. reflexivity.
Qed.

Lemma remove_files_caught (env : DeleteEnv) (profile : Profile) (st : State) :
  exists st1,
    try_except (remove_files env profile) (fun _ => ret tt) st = (Ok tt, st1)
    /\ voice_profiles st1 = voice_profiles st.
Proof.
  unfold remove_files, try_except, bind, get_state, modify.
  destruct (contains (file profile) (wav_files st));
    destruct (d_remove_file env) as [[]|]; destruct (d_codes_exists env);
    destruct (d_remove_codes env) as [[]|]; cbn; unfold ret;
    eexists; split; reflexivity.
Qed.

Lemma delete_voice_profiles (env : DeleteEnv) (voice_name : str) (st : State) :
  voice_profiles (snd (delete_voice env voice_name st))
  = if contains voice_name (voice_profiles st)
    then del voice_name (voice_profiles st) else voice_profiles st.
Proof.
  unfold delete_voice.
  rewrite (bind_run _ _ get_state _ st st st eq_refl).
  destruct (contains voice_name (voice_profiles st)) eqn:C;
    cbn [negb]; [|reflexivity].
  rewrite (bind_run _ _ (ret tt) _ st st tt eq_refl).
  unfold contains in C.
  destruct (get voice_name (voice_profiles st)) as [p|] eqn:G; [|discriminate].
  assert (Hget : getitem voice_name st = (Ok p, st)).
  { unfold getitem. rewrite (bind_run _ _ get_state _ st st st eq_refl).
    rewrite G. reflexivity. }
  rewrite (bind_run _ _ _ _ _ _ _ Hget).
  destruct (remove_files_caught env p st) as (st1 & E & Hvp).
  rewrite (bind_run _ _ _ _ _ _ _ E).
  unfold bind, modify, save_voice_profiles.
  destruct (d_json_dump env) as [[]|]; cbn; rewrite Hvp; reflexivity.
Qed.

Lemma get_voice_get (voice_name : str) (st : State) :
  get_voice voice_name st = get voice_name (voice_profiles st).
Proof.
  unfold get_voice, contains.
  destruct (get voice_name (voice_profiles st)); reflexivity.
Qed.

Lemma get_voice_after_delete (env : DeleteEnv) (voice_name : str) (st : State) :
  registry_wf st ->
  get_voice voice_name (snd (delete_voice env voice_name st)) = None.
Proof.
  intros Hwf. rewrite get_voice_get, delete_voice_profiles. unfold contains.
  destruct (get voice_name (voice_profiles st)) eqn:G;
    [apply get_del_same, Hwf | exact G].
Qed.

Lemma list_voices_names (st : State) :
  map ve_name (list_voices st) = keys (voice_profiles st).
Proof.
  unfold list_voices, keys. rewrite map_map. apply map_ext.
  intros [name p]. reflexivity.
Qed.

Lemma filter_map_swap (A B : Type) (f : B -> bool) (g : A -> B) (l : list A) :
  filter f (map g l) = map g (filter (fun x => f (g x)) l).
Proof.
  induction l as [|x l IH]; simpl; [reflexivity|].
  rewrite IH. destruct (f (g x)); reflexivity.
Qed.

Lemma chunk_text_not_nil (text : str) (max_chars : Z) :
  chunk_text text max_chars <> [].
Proof.
  unfold chunk_text. destruct (len text <=? max_chars)%Z; [discriminate|].
  destruct (chunk_loop max_chars (split_sentences text) [] []) as [chunks cur].
  match goal with
  | |- (if truthy ?c then _ else _) <> [] => destruct c; simpl; discriminate
  end.
Qed.

Lemma infer_loop_returns (env : GenerateEnv) (codes : ref_codes)
    (ref_text : option str) (text_chunks : list str) :
  forall k audio_segments wavs st,
    engine_returns env codes ref_text text_chunks k wavs ->
    infer_loop env codes ref_text text_chunks k audio_segments st
    = (Ok (audio_segments ++ wavs), st).
Proof.
  induction text_chunks as [|chunk rest IH]; intros k acc wavs st H;
    destruct wavs as [|w wavs]; simpl in H; try contradiction.
  - simpl. rewrite app_nil_r. reflexivity.
  - destruct H as [Hw Hrest]. simpl. rewrite Hw.
    rewrite (bind_run _ _ (external (Returns w)) _ st st w eq_refl).
    rewrite (IH (S k) (acc ++ [w]) wavs st Hrest), <- app_assoc. reflexivity.
Qed.

Lemma infer_loop_raises (env : GenerateEnv) (codes : ref_codes)
    (ref_text : option str) (before : list str) (chunk : str)
    (after : list str) (message : str) :
  forall k audio_segments wavs st,
    engine_returns env codes ref_text before k wavs ->
    infer env (k + List.length before) chunk codes ref_text = Raises message ->
    infer_loop env codes ref_text (before ++ chunk :: after) k audio_segments st
    = (Raise (Exception message), st).
Proof.
  induction before as [|c before IH]; intros k acc wavs st H Hfail;
    destruct wavs as [|w wavs]; simpl in H; try contradiction.
  - simpl in *. rewrite Nat.add_0_r in Hfail. rewrite Hfail. reflexivity.
  - destruct H as [Hw Hrest]. simpl. rewrite Hw.
    rewrite (bind_run _ _ (external (Returns w)) _ st st w eq_refl).
    apply (IH (S k) (acc ++ [w]) wavs st Hrest).
    simpl in Hfail. rewrite Nat.add_succ_r in Hfail. exact Hfail.
Qed.

Lemma engine_returns_length (env : GenerateEnv) (codes : ref_codes)
    (ref_text : option str) (text_chunks : list str) :
  forall k wavs,
    engine_returns env codes ref_text text_chunks k wavs ->
    List.length wavs = List.length text_chunks.
Proof.
  induction text_chunks as [|chunk rest IH]; intros k [|w wavs] H;
    simpl in H; try contradiction; [reflexivity|].
  simpl. f_equal. apply (IH (S k)). tauto.
Qed.

(** [np.concatenate] of several segments, or the only segment. *)
Lemma concatenate_segments (wavs : list waveform) (st : State) :
  wavs <> [] ->
  (if (1 <? len wavs)%Z then ret (List.concat wavs)
   else match wavs with
        | w :: _ => ret w
        | [] => raise waveform (Exception (lit "list index out of range"))
        end) st = (Ok (List.concat wavs), st).
Proof.
  intros Hne. destruct (1 <? len wavs)%Z eqn:E; [reflexivity|].
  apply Z.ltb_ge in E. unfold len in E.
  destruct wavs as [|w [|w2 wavs]]; simpl in E |- *.
  - contradiction.
  - rewrite app_nil_r. reflexivity.
  - lia.
Qed.

Lemma getitem_found (voice_name : str) (profile : Profile) (st : State) :
  get voice_name (voice_profiles st) = Some profile ->
  getitem voice_name st = (Ok profile, st).
Proof.
  intros G. unfold getitem.
  rewrite (bind_run _ _ get_state _ st st st eq_refl), G. reflexivity.
Qed.

Lemma preserves_delete_voice (env : DeleteEnv) (voice_name : str) :
  preserves registry_wf (delete_voice env voice_name).
Proof.
  unfold delete_voice, remove_files, save_voice_profiles.
  pose proof preserves_getitem. preserve.
  - apply preserves_modify. auto.
  - apply preserves_modify. intros st H'. apply NoDup_keys_del, H'.
Qed.

Section HandlerFacts.

Variable lower : str -> str.
Variable http_exception_str : Z -> str -> str.
Variable joinpath : str -> str -> str.
Variable str_of_list : list str -> str.

#[local] Abbreviation clone := (clone_voice lower http_exception_str joinpath).
#[local] Abbreviation generate :=
  (generate_speech http_exception_str joinpath str_of_list).
#[local] Abbreviation reach :=
  (reachable lower http_exception_str joinpath str_of_list).

Lemma preserves_clone_voice (env : CloneEnv) (filename voice_name : str)
    (reference_text : option str) :
  preserves registry_wf (clone env filename voice_name reference_text).
Proof. unfold clone_voice, save_voice_profiles. preserve. Qed.

Lemma preserves_generate_speech (env : GenerateEnv) (text voice_name : str)
    (output_filename : option str) :
  preserves registry_wf (generate env text voice_name output_filename).
Proof.
  unfold generate_speech.
  pose proof preserves_infer_loop. pose proof preserves_getitem. preserve.
Qed.

Lemma reachable_wf (st : State) : reach st -> registry_wf st.
Proof.
  induction 1 as [profiles_json disk | st st' _ IH Hstep].
  - unfold registry_wf. destruct profiles_json as [members|]; simpl.
    + apply NoDup_keys_of_members.
    + constructor.
  - destruct Hstep.
    + apply preserves_clone_voice, IH.
    + apply preserves_generate_speech, IH.
    + apply preserves_delete_voice, IH.
Qed.

(** C9. A file name without an accepted suffix is refused with status
    500: the [HTTPException] with status 400 raised by the check is caught
    by the handler's own [except Exception] and wrapped. *)
Theorem clone_bad_extension_is_500 (env : CloneEnv)
    (filename voice_name : str) (reference_text : option str) (st : State) :
  endswith_any (lower filename) audio_suffixes = false ->
  clone env filename voice_name reference_text st
  = (Raise (HTTPException 500
       (lit "Error cloning voice: "
        ++ http_exception_str 400
             (lit "Only audio files are supported (wav, mp3, flac, ogg, webm)"))),
     st).
Proof.
  intros H. unfold clone_voice, try_except, bind. rewrite H. reflexivity.
Qed.

(** C1, amended. For a decoded waveform that is not empty and has only
    zero samples the handler has no guard: it divides every sample by the
    peak 0, which gives NaN, writes that waveform, and, when the external
    calls return, registers the profile and answers with success. *)
Theorem clone_silent_input (voice_id : str) (audio : waveform)
    (codes : ref_codes) (filename voice_name : str)
    (reference_text : option str) (st : State) :
  endswith_any (lower filename) audio_suffixes = true ->
  audio <> [] -> Forall (fun x => is_zero x = true) audio ->
  clone (clone_env_ok voice_id audio codes) filename voice_name
    reference_text st
  = (Ok {| cr_status := lit "success";
           cr_message :=
             lit "Voice '" ++ voice_name ++ lit "' cloned successfully";
           cr_voice_id := voice_id;
           cr_voice_name := voice_name |},
     {| voice_profiles :=
          set voice_name
            {| id := voice_id;
               file := joinpath VOICES_DIR (voice_id ++ lit ".wav");
               codes_file := joinpath VOICES_DIR (voice_id ++ lit "_codes.pt");
               reference_text := reference_text;
               original_filename := filename |}
            (voice_profiles st);
        wav_files :=
          set (joinpath VOICES_DIR (voice_id ++ lit ".wav"))
            (map (fun _ => S754_nan) audio) (wav_files st) |}).
Proof.
  intros Hext Hne Hz.
  unfold clone_voice, try_except, bind at 1. rewrite Hext.
  cbn [negb ret bind clone_env_ok uuid4 write_temp librosa_load external].
  rewrite (bind_run _ _ _ _ _ _ _ (np_max_zero audio st Hne Hz)).
  rewrite (div_zero_by_zero audio Hz). reflexivity.
Qed.

Lemma clone_voice_ok (env : CloneEnv) (filename voice_name : str)
    (ref_text : option str) (st st' : State) (resp : CloneResponse) :
  clone env filename voice_name ref_text st = (Ok resp, st') ->
  voice_profiles st'
  = set voice_name
      {| id := uuid4 env;
         file := joinpath VOICES_DIR (uuid4 env ++ lit ".wav");
         codes_file := joinpath VOICES_DIR (uuid4 env ++ lit "_codes.pt");
         reference_text := ref_text;
         original_filename := filename |}
      (voice_profiles st).
Proof.
  intros H. unfold clone_voice, try_except in H.
  match type of H with
  | (let (_, _) := ?body st in _) = _ =>
      destruct (body st) as [[a|e] st1] eqn:Hb; [|discriminate]
  end.
  inversion H; subst a st1; clear H.
  apply bind_ok in Hb. destruct Hb as (x1 & s1 & H1 & Hb).
  assert (s1 = st) as ->.
  { destruct (negb _) in H1; inversion H1; reflexivity. }
  clear H1.
  apply bind_ok in Hb. destruct Hb as (x2 & s2 & H2 & Hb).
  apply external_ok in H2. destruct H2 as [_ ->].
  apply bind_ok in Hb. destruct Hb as (audio & s3 & H3 & Hb).
  apply external_ok in H3. destruct H3 as [_ ->].
  apply bind_ok in Hb. destruct Hb as (peak & s4 & H4 & Hb).
  assert (s4 = st) as ->.
  { unfold np_max in H4. destruct (map f32_abs audio); inversion H4; reflexivity. }
  clear H4.
  apply bind_ok in Hb. destruct Hb as (x5 & s5 & H5 & Hb).
  unfold sf_write in H5. apply bind_ok in H5. destruct H5 as (x & s & Hx & H5).
  apply external_ok in Hx. destruct Hx as [_ ->].
  unfold modify in H5. inversion H5; subst x5 s5; clear H5.
  apply bind_ok in Hb. destruct Hb as (x6 & s6 & H6 & Hb).
  apply external_ok in H6. destruct H6 as [_ ->].
  apply bind_ok in Hb. destruct Hb as (x7 & s7 & H7 & Hb).
  apply external_ok in H7. destruct H7 as [_ ->].
  apply bind_ok in Hb. destruct Hb as (x8 & s8 & H8 & Hb).
  apply external_ok in H8. destruct H8 as [_ ->].
  apply bind_ok in Hb. destruct Hb as (x9 & s9 & H9 & Hb).
  apply external_ok in H9. destruct H9 as [_ ->].
  apply bind_ok in Hb. destruct Hb as (x10 & s10 & H10 & Hb).
  unfold set_voice_profile, modify in H10. inversion H10; subst x10 s10; clear H10.
  apply bind_ok in Hb. destruct Hb as (x11 & s11 & H11 & Hb).
  unfold save_voice_profiles in H11.
  apply external_ok in H11. destruct H11 as [_ ->].
  unfold ret in Hb. inversion Hb. reflexivity.
Qed.

Lemma generate_unknown_voice (env : GenerateEnv) (text voice_name : str)
    (output_filename : option str) (st : State) :
  get_voice voice_name st = None ->
  generate env text voice_name output_filename st
  = (Raise (HTTPException 404
       (lit "Voice '" ++ voice_name ++ lit "' not found. Available voices: "
        ++ str_of_list (keys (voice_profiles st)))),
     st).
Proof.
  rewrite get_voice_get. intros H.
  unfold generate_speech, try_except, bind at 1, get_state, contains.
  rewrite H. reflexivity.
Qed.

(** C5. After a successful clone under [voice_name], the lookup finds a
    profile with the file name and the reference text of the request
    (none when it was omitted); after a delete of [voice_name] the lookup
    finds nothing and [generate_speech] answers 404. *)
Theorem registry_round_trip (env : CloneEnv) (filename voice_name : str)
    (ref_text : option str) (st st' : State) (resp : CloneResponse) :
  reach st ->
  clone env filename voice_name ref_text st = (Ok resp, st') ->
  (exists p, get_voice voice_name st' = Some p
             /\ original_filename p = filename
             /\ reference_text p = ref_text)
  /\ forall denv,
       let st'' := snd (delete_voice denv voice_name st') in
       get_voice voice_name st'' = None
       /\ forall genv text output_filename,
            fst (generate genv text voice_name output_filename st'')
            = Raise (HTTPException 404
                (lit "Voice '" ++ voice_name
                 ++ lit "' not found. Available voices: "
                 ++ str_of_list (keys (voice_profiles st'')))).
Proof.
  intros Hreach Hclone. split.
  - rewrite get_voice_get, (clone_voice_ok _ _ _ _ _ _ _ Hclone), get_set_same.
    eexists. split; [reflexivity|]. split; reflexivity.
  - intros denv st''.
    assert (Hwf : registry_wf st').
    { apply (reachable_wf st'). eapply reachable_step; [exact Hreach|].
      pose proof (step_clone lower http_exception_str joinpath str_of_list
                    env filename voice_name ref_text st) as Hs.
      rewrite Hclone in Hs. exact Hs. }
    pose proof (get_voice_after_delete denv voice_name st' Hwf) as Hnone.
    split; [exact Hnone|]. intros genv text output_filename.
    rewrite (generate_unknown_voice genv text voice_name output_filename st'' Hnone).
    reflexivity.
Qed.

(** C6. In a reachable state no two entries of the listing have the same
    name; after two successful clones under one name the listing has one
    entry of that name, with the data of the second. *)
Theorem registry_overwrite (st : State) :
  reach st ->
  NoDup (map ve_name (list_voices st))
  /\ forall env1 env2 file1 file2 voice_name text1 text2 resp1 resp2 st1 st2,
       clone env1 file1 voice_name text1 st = (Ok resp1, st1) ->
       clone env2 file2 voice_name text2 st1 = (Ok resp2, st2) ->
       filter (fun e => str_eqb (ve_name e) voice_name) (list_voices st2)
       = [ {| ve_name := voice_name;
              ve_id := uuid4 env2;
              ve_original_file := file2;
              ve_has_reference_text :=
                match text2 with Some _ => true | None => false end |} ].
Proof.
  intros Hreach. split.
  - rewrite list_voices_names. apply (reachable_wf st Hreach).
  - intros env1 env2 file1 file2 voice_name text1 text2 resp1 resp2 st1 st2
      H1 H2.
    assert (Hwf : registry_wf st2).
    { apply (reachable_wf st2).
      eapply reachable_step; [eapply reachable_step; [exact Hreach|]|].
      - pose proof (step_clone lower http_exception_str joinpath str_of_list
                      env1 file1 voice_name text1 st) as Hs.
        rewrite H1 in Hs. exact Hs.
      - pose proof (step_clone lower http_exception_str joinpath str_of_list
                      env2 file2 voice_name text2 st1) as Hs.
        rewrite H2 in Hs. exact Hs. }
    unfold list_voices.
    rewrite (filter_map_swap _ _
               (fun e => str_eqb (ve_name e) voice_name)).
    erewrite (filter_ext _ (fun kv => str_eqb (fst kv) voice_name)).
    2:{ intros [k p]. reflexivity. }
    pose proof (clone_voice_ok _ _ _ _ _ _ _ H2) as Hvp.
    pose proof (get_set_same _ voice_name
                  {| id := uuid4 env2;
                     file := joinpath VOICES_DIR (uuid4 env2 ++ lit ".wav");
                     codes_file :=
                       joinpath VOICES_DIR (uuid4 env2 ++ lit "_codes.pt");
                     reference_text := text2;
                     original_filename := file2 |}
                  (voice_profiles st1)) as Hget.
    rewrite <- Hvp in Hget.
    rewrite (filter_key_unique _ voice_name _ (voice_profiles st2) Hwf Hget).
    reflexivity.
Qed.

(** The steps of [generate_speech] before the loop, for a known voice. *)
Ltac generate_prelude Hget Hinit Hload :=
  unfold generate_speech, try_except;
  rewrite (bind_run _ _ get_state _ _ _ _ eq_refl);
  unfold contains; rewrite Hget; cbn [negb];
  rewrite (bind_run _ _ (ret tt) _ _ _ tt eq_refl);
  rewrite Hinit;
  rewrite (bind_run _ _ (external (Returns tt)) _ _ _ tt eq_refl);
  rewrite (bind_run _ _ _ _ _ _ _ (getitem_found _ _ _ Hget));
  rewrite Hload;
  rewrite (bind_run _ _ (external (Returns _)) _ _ _ _ eq_refl).

(** C7. When the engine raises on a chunk after returning for the chunks
    before it, the request ends with status 500 carrying the engine's
    message, and the state is the one before the request: nothing was
    written, and the waveforms of the earlier chunks are dropped. *)
Theorem generate_all_or_nothing (env : GenerateEnv) (text voice_name : str)
    (output_filename : option str) (st : State) (profile : Profile)
    (codes : ref_codes) (before : list str) (chunk : str)
    (after : list str) (wavs : list waveform) (message : str) :
  get_voice voice_name st = Some profile ->
  g_init_tts env = Returns tt ->
  torch_load env (codes_file profile) = Returns codes ->
  chunk_text text 200 = before ++ chunk :: after ->
  engine_returns env codes (reference_text profile) before 0 wavs ->
  infer env (List.length before) chunk codes (reference_text profile)
  = Raises message ->
  generate env text voice_name output_filename st
  = (Raise (HTTPException 500 (lit "Error generating speech: " ++ message)),
     st).
Proof.
  intros Hget Hinit Hload Hchunks Hbefore Hfail.
  rewrite get_voice_get in Hget.
  generate_prelude Hget Hinit Hload.
  rewrite Hchunks.
  rewrite (bind_raise _ _ _ _ _ _ _
             (infer_loop_raises env codes (reference_text profile) before chunk
                after message 0 [] wavs st Hbefore Hfail)).
  reflexivity.
Qed.

(** C8. When the engine returns a waveform for every chunk and the
    output file can be written, the file holds the waveforms of the chunks
    one after the other in chunk order, and nothing else. *)
Theorem generate_concatenates (env : GenerateEnv) (text voice_name : str)
    (output_filename : option str) (st : State) (profile : Profile)
    (codes : ref_codes) (wavs : list waveform) :
  get_voice voice_name st = Some profile ->
  g_init_tts env = Returns tt ->
  torch_load env (codes_file profile) = Returns codes ->
  engine_returns env codes (reference_text profile) (chunk_text text 200) 0
    wavs ->
  g_sf_write env = Returns tt ->
  let name := resolve_output_filename env output_filename in
  let path := joinpath OUTPUTS_DIR name in
  generate env text voice_name output_filename st
  = (Ok {| fr_path := path;
           fr_media_type := lit "audio/wav";
           fr_filename := name |},
     {| voice_profiles := voice_profiles st;
        wav_files := set path (List.concat wavs) (wav_files st) |}).
Proof.
  intros Hget Hinit Hload Hengine Hwrite name path.
  rewrite get_voice_get in Hget.
  generate_prelude Hget Hinit Hload.
  rewrite (bind_run _ _ _ _ _ _ _
             (infer_loop_returns env codes (reference_text profile)
                (chunk_text text 200) 0 [] wavs st Hengine)).
  cbn [app].
  assert (Hne : wavs <> []).
  { intros Hnil. apply (chunk_text_not_nil text 200).
    apply length_zero_iff_nil.
    rewrite <- (engine_returns_length _ _ _ _ _ _ Hengine), Hnil.
    reflexivity. }
  pose proof (concatenate_segments wavs st Hne) as Hwav.
  rewrite (bind_run _ _ _ _ _ _ _ Hwav).
  unfold sf_write. rewrite Hwrite. reflexivity.
Qed.

End HandlerFacts.

(** ** The theorems on concrete requests *)

(** C1, as stated, fails: a clone of a waveform of two zero samples, with
    every external call returning, answers with success; the file written
    holds two NaN samples and the profile is registered. *)
Lemma clone_silent_counterexample :
  let audio := [f32_zero; f32_zero] in
  let r := clone_voice ascii_lower starlette_str posix_join
             (clone_env_ok (lit "id1") audio [7%Z; 8%Z])
             (lit "silence.wav") (lit "quiet") None empty_state in
  forallb is_zero audio = true
  /\ fst r = Ok {| cr_status := lit "success";
                   cr_message := lit "Voice 'quiet' cloned successfully";
                   cr_voice_id := lit "id1";
                   cr_voice_name := lit "quiet" |}
  /\ get (lit "/app/voices/id1.wav") (wav_files (snd r))
     = Some [S754_nan; S754_nan]
  /\ contains (lit "quiet") (voice_profiles (snd r)) = true
  /\ ~ (exists e, fst r = Raise e).
Proof.
  cbv zeta. repeat split; try reflexivity.
  intros [e H]. vm_compute in H. discriminate.
Qed.

Lemma clone_silent_input_witness :
  endswith_any (ascii_lower (lit "Silence.WAV")) audio_suffixes = true
  /\ [f32_zero; S754_zero true] <> []
  /\ Forall (fun x => is_zero x = true) [f32_zero; S754_zero true]
  /\ get (lit "/app/voices/id1.wav")
       (wav_files
          (snd (clone_voice ascii_lower starlette_str posix_join
                  (clone_env_ok (lit "id1") [f32_zero; S754_zero true] [7%Z])
                  (lit "Silence.WAV") (lit "quiet") None empty_state)))
     = Some [S754_nan; S754_nan].
Proof.
  assert (H1 : endswith_any (ascii_lower (lit "Silence.WAV")) audio_suffixes
               = true) by reflexivity.
  assert (H2 : [f32_zero; S754_zero true] <> []) by discriminate.
  assert (H3 : Forall (fun x => is_zero x = true) [f32_zero; S754_zero true])
    by (repeat constructor).
  split; [exact H1|]. split; [exact H2|]. split; [exact H3|].
  rewrite (clone_silent_input ascii_lower starlette_str posix_join
             (lit "id1") [f32_zero; S754_zero true] [7%Z]
             (lit "Silence.WAV") (lit "quiet") None empty_state H1 H2 H3).
  reflexivity.
Defined.

Lemma clone_bad_extension_witness :
  endswith_any (ascii_lower (lit "notes.TXT")) audio_suffixes = false
  /\ clone_voice ascii_lower starlette_str posix_join
       (clone_env_ok (lit "id1") [f32_half] [7%Z])
       (lit "notes.TXT") (lit "voice1") None empty_state
     = (Raise (HTTPException 500 (lit
         "Error cloning voice: 400: Only audio files are supported (wav, mp3, flac, ogg, webm)")),
        empty_state).
Proof.
  assert (H : endswith_any (ascii_lower (lit "notes.TXT")) audio_suffixes
              = false) by reflexivity.
  split; [exact H|].
  exact (clone_bad_extension_is_500 ascii_lower starlette_str posix_join
           (clone_env_ok (lit "id1") [f32_half] [7%Z])
           (lit "notes.TXT") (lit "voice1") None empty_state H).
Defined.

Lemma registry_round_trip_witness :
  exists resp st',
    reachable ascii_lower starlette_str posix_join repr_list empty_state
    /\ clone_voice ascii_lower starlette_str posix_join
         (clone_env_ok (lit "id1") [f32_half] [7%Z])
         (lit "me.wav") (lit "voice1") (Some (lit "hello there")) empty_state
       = (Ok resp, st')
    /\ (exists p, get_voice (lit "voice1") st' = Some p
                  /\ original_filename p = lit "me.wav"
                  /\ reference_text p = Some (lit "hello there"))
    /\ get_voice (lit "voice1")
         (snd (delete_voice
                 {| d_remove_file := Returns tt; d_codes_exists := true;
                    d_remove_codes := Returns tt; d_json_dump := Returns tt |}
                 (lit "voice1") st')) = None.
Proof.
  eexists. eexists.
  assert (H1 : reachable ascii_lower starlette_str posix_join repr_list
                 empty_state)
    by exact (reachable_start ascii_lower starlette_str posix_join repr_list
                None []).
  split; [exact H1|]. split; [reflexivity|].
  destruct (registry_round_trip ascii_lower starlette_str posix_join repr_list
              (clone_env_ok (lit "id1") [f32_half] [7%Z])
              (lit "me.wav") (lit "voice1") (Some (lit "hello there"))
              empty_state _ _ H1 eq_refl) as [Hget Hdel].
  split; [exact Hget|]. apply Hdel.
Defined.

Lemma registry_overwrite_witness :
  reachable ascii_lower starlette_str posix_join repr_list empty_state
  /\ NoDup (map ve_name (list_voices empty_state))
  /\ exists st1 st2,
       snd (clone_voice ascii_lower starlette_str posix_join
              (clone_env_ok (lit "id1") [f32_half] [7%Z])
              (lit "first.wav") (lit "voice1") (Some (lit "hello there"))
              empty_state) = st1
       /\ snd (clone_voice ascii_lower starlette_str posix_join
                 (clone_env_ok (lit "id2") [f32_one] [8%Z])
                 (lit "second.mp3") (lit "voice1") None st1) = st2
       /\ list_voices st2
          = [ {| ve_name := lit "voice1"; ve_id := lit "id2";
                 ve_original_file := lit "second.mp3";
                 ve_has_reference_text := false |} ]
       /\ filter (fun e => str_eqb (ve_name e) (lit "voice1")) (list_voices st2)
          = [ {| ve_name := lit "voice1"; ve_id := lit "id2";
                 ve_original_file := lit "second.mp3";
                 ve_has_reference_text := false |} ].
Proof.
  assert (H1 : reachable ascii_lower starlette_str posix_join repr_list
                 empty_state)
    by exact (reachable_start ascii_lower starlette_str posix_join repr_list
                None []).
  destruct (registry_overwrite ascii_lower starlette_str posix_join repr_list
              empty_state H1) as [Hnodup Htwice].
  split; [exact H1|]. split; [exact Hnodup|].
  eexists. eexists. split; [reflexivity|]. split; [reflexivity|].
  split; [reflexivity|].
  exact (Htwice (clone_env_ok (lit "id1") [f32_half] [7%Z])
           (clone_env_ok (lit "id2") [f32_one] [8%Z])
           (lit "first.wav") (lit "second.mp3") (lit "voice1")
           (Some (lit "hello there")) None _ _ _ _ eq_refl eq_refl).
Defined.

Example chunk_text_three_sentences :
  chunk_text three_sentences 200
  = [repeat 97%N 150 ++ lit "."; repeat 98%N 150 ++ lit ".";
     repeat 99%N 150 ++ lit "."].
Proof. vm_compute. reflexivity. Qed.

Lemma generate_all_or_nothing_witness :
  get_voice (lit "voice1") voice1_state = Some voice1
  /\ chunk_text three_sentences 200
     = [repeat 97%N 150 ++ lit "."] ++ (repeat 98%N 150 ++ lit ".")
       :: [repeat 99%N 150 ++ lit "."]
  /\ infer engine_fails_second 1 (repeat 98%N 150 ++ lit ".") [7%Z; 8%Z]
       (Some (lit "hello there")) = Raises (lit "CUDA out of memory")
  /\ generate_speech starlette_str posix_join repr_list engine_fails_second
       three_sentences (lit "voice1") None voice1_state
     = (Raise (HTTPException 500
          (lit "Error generating speech: CUDA out of memory")),
        voice1_state).
Proof.
  assert (H1 : get_voice (lit "voice1") voice1_state = Some voice1)
    by reflexivity.
  assert (H2 : chunk_text three_sentences 200
               = [repeat 97%N 150 ++ lit "."] ++ (repeat 98%N 150 ++ lit ".")
                 :: [repeat 99%N 150 ++ lit "."])
    by (vm_compute; reflexivity).
  assert (H3 : infer engine_fails_second 1 (repeat 98%N 150 ++ lit ".")
                 [7%Z; 8%Z] (Some (lit "hello there"))
               = Raises (lit "CUDA out of memory")) by reflexivity.
  split; [exact H1|]. split; [exact H2|]. split; [exact H3|].
  exact (generate_all_or_nothing starlette_str posix_join repr_list
           engine_fails_second three_sentences (lit "voice1") None
           voice1_state voice1 [7%Z; 8%Z]
           [repeat 97%N 150 ++ lit "."] (repeat 98%N 150 ++ lit ".")
           [repeat 99%N 150 ++ lit "."] [[f32_one]] (lit "CUDA out of memory")
           H1 eq_refl eq_refl H2 (conj eq_refl I) H3).
Defined.

Lemma generate_concatenates_witness :
  get_voice (lit "voice1") voice1_state = Some voice1
  /\ engine_returns engine_ok [7%Z; 8%Z] (Some (lit "hello there"))
       (chunk_text three_sentences 200) 0
       [[f32_one]; [f32_half; f32_half]; [f32_half; f32_half; f32_half]]
  /\ generate_speech starlette_str posix_join repr_list engine_ok
       three_sentences (lit "voice1") (Some (lit "speech")) voice1_state
     = (Ok {| fr_path := lit "/app/outputs/speech.wav";
              fr_media_type := lit "audio/wav";
              fr_filename := lit "speech.wav" |},
        {| voice_profiles := [(lit "voice1", voice1)];
           wav_files :=
             [(lit "/app/outputs/speech.wav",
               [f32_one; f32_half; f32_half; f32_half; f32_half; f32_half])]
        |}).
Proof.
  assert (H1 : get_voice (lit "voice1") voice1_state = Some voice1)
    by reflexivity.
  assert (H2 : engine_returns engine_ok [7%Z; 8%Z] (Some (lit "hello there"))
                 (chunk_text three_sentences 200) 0
                 [[f32_one]; [f32_half; f32_half];
                  [f32_half; f32_half; f32_half]]).
  { rewrite chunk_text_three_sentences. simpl. auto. }
  split; [exact H1|]. split; [exact H2|].
  exact (generate_concatenates starlette_str posix_join repr_list engine_ok
           three_sentences (lit "voice1") (Some (lit "speech")) voice1_state
           voice1 [7%Z; 8%Z]
           [[f32_one]; [f32_half; f32_half]; [f32_half; f32_half; f32_half]]
           H1 eq_refl eq_refl H2 eq_refl).
Defined.

(** * Further properties *)

(** ** The text segmenter *)

Lemma good_group_accumulated_len (g : list str) :
  good_group g -> (3 <= len (accumulated g))%Z.
Proof.
  intros [Hne Hc]. destruct g as [|s g]; [congruence|].
  inversion Hc as [|? ? [Hs _] _]; subst.
  unfold accumulated. cbn [map List.concat]. rewrite !len_app.
  pose proof (len_nonneg _ (List.concat (map (fun s => s ++ lit ". ") g))).
  change (len (lit ". ")) with 2%Z.
  destruct s; [congruence|]. unfold len at 1. simpl List.length. lia.
Qed.

Lemma good_groups_count (groups : list (list str)) :
  Forall good_group groups ->
  (List.length groups <= List.length (List.concat groups))%nat.
Proof.
  induction 1 as [|g groups [Hne _] _ IH]; simpl; [lia|].
  rewrite length_app. destruct g; [congruence|]. simpl. lia.
Qed.

Lemma greedy_grow (max_chars : Z) (l : list (list str)) (g : list str)
    (s : str) :
  greedy max_chars (l ++ [g]) -> g <> [] ->
  greedy max_chars (l ++ [g ++ [s]]).
Proof.
  intros H Hne. induction l as [|a l IH]; [exact I|].
  destruct l as [|b l].
  - simpl in *. destruct g; [congruence|]. exact H.
  - change (greedy max_chars (a :: (b :: l) ++ [g ++ [s]]))
      with (overflows max_chars a b
            /\ greedy max_chars ((b :: l) ++ [g ++ [s]])).
    destruct H as [H1 H2]. split; [exact H1 | apply IH, H2].
Qed.

Lemma greedy_close (max_chars : Z) (l : list (list str)) (g g' : list str) :
  greedy max_chars (l ++ [g]) -> overflows max_chars g g' ->
  greedy max_chars ((l ++ [g]) ++ [g']).
Proof.
  intros H Ho. induction l as [|a l IH]; [simpl; auto|].
  destruct l as [|b l].
  - simpl in *. tauto.
  - change (greedy max_chars ((a :: (b :: l) ++ [g]) ++ [g']))
      with (overflows max_chars a b
            /\ greedy max_chars (((b :: l) ++ [g]) ++ [g'])).
    destruct H as [H1 H2]. split; [exact H1 | apply IH, H2].
Qed.

(** The loop closes a group only when the next sentence does not fit. *)
Lemma chunk_loop_greedy (max_chars : Z) (cands : list str) :
  Forall (Forall (fun c => is_delimiter c = false)) cands ->
  forall groups g,
    Forall good_group groups -> Forall clean g ->
    greedy max_chars (groups ++ [g]) -> (g = [] -> groups = []) ->
    exists groups' g',
      chunk_loop max_chars cands (map render groups) (accumulated g)
      = (map render groups', accumulated g')
      /\ Forall good_group groups' /\ Forall clean g'
      /\ greedy max_chars (groups' ++ [g']) /\ (g' = [] -> groups' = [])
      /\ List.concat groups' ++ g'
         = List.concat groups ++ g ++ filter (@truthy char) (map strip cands).
Proof.
  induction 1 as [|cand cands Hd _ IH]; intros groups g Hgs Hg Gr Hnil.
  - exists groups, g. simpl. rewrite app_nil_r. auto 10.
  - rewrite chunk_loop_cons. cbn [map filter].
    destruct (truthy (strip cand)) eqn:Ht; cbn [negb].
    2:{ apply IH; assumption. }
    pose proof (strip_clean cand Hd Ht) as Hs.
    assert (Hsne : [strip cand] <> []) by discriminate.
    destruct (len (accumulated g) + len (strip cand) + 2 <=? max_chars)%Z eqn:Hle.
    + rewrite <- accumulated_snoc.
      destruct (IH groups (g ++ [strip cand])) as [groups' [g' [E H']]];
        try assumption.
      * apply Forall_app. split; [assumption | constructor; [assumption | constructor]].
      * destruct g as [|s0 g0]; [rewrite (Hnil eq_refl); exact I|].
        apply greedy_grow; [exact Gr | discriminate].
      * intros Habs. destruct g; discriminate.
      * exists groups', g'. split; [exact E|].
        rewrite <- app_assoc in H'. exact H'.
    + apply Z.leb_gt in Hle.
      rewrite <- accumulated_single, truthy_accumulated.
      destruct (truthy g) eqn:Tg.
      * apply truthy_true in Tg.
        assert (Hgood : good_group g) by (split; assumption).
        rewrite (strip_accumulated g Hgood).
        change (map render groups ++ [render g]) with
          (map render groups ++ map render [g]).
        rewrite <- map_app.
        destruct (IH (groups ++ [g]) [strip cand]) as [groups' [g' [E H']]].
        -- apply Forall_app. split; [assumption | constructor; [assumption | constructor]].
        -- constructor; [assumption | constructor].
        -- apply greedy_close; [exact Gr | exact Hle].
        -- intros Habs. discriminate.
        -- exists groups', g'. split; [exact E|].
           destruct H' as (A & B & C & D & F). repeat split; try assumption.
           rewrite F, concat_app. simpl. rewrite app_nil_r, <- !app_assoc.
           reflexivity.
      * apply truthy_false in Tg. subst g. rewrite (Hnil eq_refl) in *.
        destruct (IH [] [strip cand]) as [groups' [g' [E H']]].
        -- constructor.
        -- constructor; [assumption | constructor].
        -- exact I.
        -- intros Habs. discriminate.
        -- exists groups', g'. split; [exact E | exact H'].
Qed.

Lemma chunk_text_greedy_groups (text : str) (max_chars : Z) :
  (max_chars < len text)%Z ->
  exists groups,
    Forall good_group groups /\ greedy max_chars groups
    /\ List.concat groups = sentences_of text
    /\ chunk_text text max_chars
       = if truthy groups then map render groups else [text].
Proof.
  intros Hlong. unfold chunk_text.
  destruct (len text <=? max_chars)%Z eqn:E; [apply Z.leb_le in E; lia|].
  destruct (chunk_loop_greedy max_chars (split_sentences text)
              (split_sentences_no_delimiter text) [] []
              (Forall_nil _) (Forall_nil _) I (fun _ => eq_refl))
    as [groups [g (Hloop & Hgs & Hg & Gr & Hnil & Hcat)]].
  change (map render []) with (@nil str) in Hloop.
  change (accumulated []) with (@nil char) in Hloop.
  rewrite Hloop, truthy_accumulated.
  simpl in Hcat. fold (sentences_of text) in Hcat.
  destruct (truthy g) eqn:Tg.
  - apply truthy_true in Tg.
    assert (Hgood : good_group g) by (split; assumption).
    exists (groups ++ [g]). rewrite (strip_accumulated g Hgood).
    repeat split.
    + apply Forall_app. split; [assumption | constructor; [assumption | constructor]].
    + exact Gr.
    + rewrite concat_app. simpl. rewrite app_nil_r. exact Hcat.
    + rewrite map_app. simpl.
      destruct (map render groups ++ [render g]) eqn:E1;
        [destruct (map render groups); discriminate|].
      destruct (groups ++ [g]) eqn:E2; [destruct groups; discriminate|].
      reflexivity.
  - apply truthy_false in Tg. subst g. rewrite (Hnil eq_refl) in *.
    exists []. repeat split; try assumption; try constructor.
Qed.

(** X1. There is always at least one chunk, and never more chunks than
    the text has sentences (one chunk when it has none). *)
Theorem chunk_count_bounds (text : str) (max_chars : Z) :
  (1 <= List.length (chunk_text text max_chars))%nat
  /\ (List.length (chunk_text text max_chars)
      <= Nat.max 1 (List.length (sentences_of text)))%nat.
Proof.
  destruct (Z_le_gt_dec (len text) max_chars) as [Hshort | Hlong].
  - unfold chunk_text. apply Z.leb_le in Hshort. rewrite Hshort.
    cbn [List.length]. split; [lia | apply Nat.le_max_l].
  - destruct (chunk_text_groups text max_chars) as [groups (Hg & _ & Hcat & E)];
      [lia|].
    rewrite E. destruct (truthy groups) eqn:T.
    2:{ cbn [List.length]. split; [lia | apply Nat.le_max_l]. }
    apply truthy_true in T. rewrite length_map, <- Hcat.
    pose proof (good_groups_count groups Hg) as Hcount.
    split.
    + destruct groups; [congruence|]. cbn [List.length]. lia.
    + etransitivity; [exact Hcount | apply Nat.le_max_r].
Qed.

(** X2. In the chunks of a text that is split, no exclamation or
    question mark is left: each was replaced by the full stop that ends
    its sentence. *)
Theorem split_chunks_lose_marks (text : str) (max_chars : Z) (c : str) :
  (max_chars < len text)%Z -> sentences_of text <> [] ->
  In c (chunk_text text max_chars) ->
  Forall (fun ch => ch <> ch_bang /\ ch <> ch_question) c.
Proof.
  intros Hlong Hsent Hin.
  destruct (chunk_text_groups text max_chars Hlong) as [groups (Hg & _ & Hcat & E)].
  rewrite E in Hin. destruct (truthy groups) eqn:T.
  2:{ apply truthy_false in T. subst groups. simpl in Hcat. congruence. }
  apply in_map_iff in Hin. destruct Hin as [g [<- Hgin]].
  pose proof (proj1 (Forall_forall _ _) Hg g Hgin) as [_ Hcl].
  destruct (render_no_bang g Hcl) as [Hb Hq].
  apply Forall_forall. intros ch Hch. split.
  - exact (proj1 (Forall_forall _ _) Hb ch Hch).
  - exact (proj1 (Forall_forall _ _) Hq ch Hch).
Qed.

Lemma split_chunks_lose_marks_witness :
  (10 < len (lit "Hi there! Who?"))%Z
  /\ sentences_of (lit "Hi there! Who?") <> []
  /\ In (lit "Hi there.") (chunk_text (lit "Hi there! Who?") 10)
  /\ Forall (fun ch => ch <> ch_bang /\ ch <> ch_question) (lit "Hi there.").
Proof.
  assert (H1 : (10 < len (lit "Hi there! Who?"))%Z) by reflexivity.
  assert (H2 : sentences_of (lit "Hi there! Who?") <> [])
    by (vm_compute; discriminate).
  assert (H3 : In (lit "Hi there.") (chunk_text (lit "Hi there! Who?") 10))
    by (left; reflexivity).
  split; [exact H1|]. split; [exact H2|]. split; [exact H3|].
  exact (split_chunks_lose_marks (lit "Hi there! Who?") 10 (lit "Hi there.")
           H1 H2 H3).
Defined.

(** X3. The split is greedy: the chunks are consecutive groups of the
    sentences, and each group but the last ends where adding the next
    sentence and its two separator characters would have exceeded the
    bound. *)
Theorem split_is_greedy (text : str) (max_chars : Z) :
  (max_chars < len text)%Z -> sentences_of text <> [] ->
  exists groups,
    chunk_text text max_chars = map render groups
    /\ List.concat groups = sentences_of text
    /\ Forall good_group groups
    /\ greedy max_chars groups.
Proof.
  intros Hlong Hsent.
  destruct (chunk_text_greedy_groups text max_chars Hlong)
    as [groups (Hg & Gr & Hcat & E)].
  exists groups. destruct (truthy groups) eqn:T.
  - auto.
  - apply truthy_false in T. subst groups. simpl in Hcat. congruence.
Qed.

Lemma split_is_greedy_witness :
  (12 < len (lit "One two. Three! Four five six? Seven"))%Z
  /\ sentences_of (lit "One two. Three! Four five six? Seven") <> []
  /\ exists groups,
       chunk_text (lit "One two. Three! Four five six? Seven") 12
       = map render groups
       /\ List.concat groups
          = sentences_of (lit "One two. Three! Four five six? Seven")
       /\ Forall good_group groups
       /\ greedy 12 groups.
Proof.
  assert (H1 : (12 < len (lit "One two. Three! Four five six? Seven"))%Z)
    by reflexivity.
  assert (H2 : sentences_of (lit "One two. Three! Four five six? Seven") <> [])
    by (vm_compute; discriminate).
  split; [exact H1|]. split; [exact H2|].
  exact (split_is_greedy (lit "One two. Three! Four five six? Seven") 12 H1 H2).
Defined.

Lemma singleton_groups (groups : list (list str)) :
  Forall (fun g => exists s, g = [s]) groups ->
  groups = map (fun s => [s]) (List.concat groups).
Proof.
  induction 1 as [|g groups [s ->] _ IH]; [reflexivity|].
  simpl. f_equal. exact IH.
Qed.

Lemma concat_single (groups : list (list str)) (s : str) :
  Forall good_group groups -> List.concat groups = [s] -> groups = [[s]].
Proof.
  intros Hg Hcat. destruct groups as [|g rest]; [discriminate|].
  inversion Hg as [|? ? [Hne _] Hrest]; subst.
  destruct g as [|x g]; [congruence|]. simpl in Hcat.
  injection Hcat as Hx Htail. apply app_eq_nil in Htail.
  destruct Htail as [Hg0 Hc]. subst x g.
  destruct rest as [|r rest]; [reflexivity|]. exfalso.
  inversion Hrest as [|? ? [Hr _] _]; subst.
  simpl in Hc. apply app_eq_nil in Hc. destruct Hc as [Hr0 _]. congruence.
Qed.

(** X4. A text without a sentence (empty, or only whitespace and
    delimiters) comes back whole as the single chunk, whatever the bound. *)
Theorem no_sentence_passthrough (text : str) (max_chars : Z) :
  sentences_of text = [] -> chunk_text text max_chars = [text].
Proof.
  intros Hnone.
  destruct (Z_le_gt_dec (len text) max_chars) as [Hshort | Hlong].
  - unfold chunk_text. apply Z.leb_le in Hshort. rewrite Hshort. reflexivity.
  - destruct (chunk_text_groups text max_chars) as [groups (Hg & _ & Hcat & E)];
      [lia|].
    rewrite E. destruct (truthy groups) eqn:T; [|reflexivity].
    apply truthy_true in T. rewrite Hnone in Hcat.
    destruct groups as [|g groups]; [congruence|].
    inversion Hg as [|? ? [Hne _] _]; subst.
    destruct g; [congruence | discriminate].
Qed.

Lemma no_sentence_passthrough_witness :
  sentences_of (lit " ...?! ") = []
  /\ chunk_text (lit " ...?! ") 3 = [lit " ...?! "].
Proof.
  assert (H : sentences_of (lit " ...?! ") = []) by reflexivity.
  split; [exact H|].
  exact (no_sentence_passthrough (lit " ...?! ") 3 H).
Defined.

(** X5. A text longer than the bound with exactly one sentence gives one
    chunk: the sentence without the whitespace around it, closed by a
    full stop whatever delimiter ended it, and however long it is. *)
Theorem single_sentence_whole (text : str) (max_chars : Z) (s : str) :
  (max_chars < len text)%Z -> sentences_of text = [s] ->
  chunk_text text max_chars = [s ++ lit "."].
Proof.
  intros Hlong Hone.
  destruct (chunk_text_groups text max_chars Hlong) as [groups (Hg & _ & Hcat & E)].
  rewrite Hone in Hcat. rewrite (concat_single groups s Hg Hcat) in E.
  exact E.
Qed.

Lemma single_sentence_whole_witness :
  (5 < len (lit "  Is anybody out there?? "))%Z
  /\ sentences_of (lit "  Is anybody out there?? ") = [lit "Is anybody out there"]
  /\ chunk_text (lit "  Is anybody out there?? ") 5
     = [lit "Is anybody out there."].
Proof.
  assert (H1 : (5 < len (lit "  Is anybody out there?? "))%Z) by reflexivity.
  assert (H2 : sentences_of (lit "  Is anybody out there?? ")
               = [lit "Is anybody out there"]) by reflexivity.
  split; [exact H1|]. split; [exact H2|].
  exact (single_sentence_whole (lit "  Is anybody out there?? ") 5
           (lit "Is anybody out there") H1 H2).
Defined.

(** X6. With a bound of 2 or less (zero and negative bounds included) no
    two sentences ever share a chunk: a longer text with sentences gives
    one chunk per sentence. *)
Theorem tiny_bound_one_per_sentence (text : str) (max_chars : Z) :
  (max_chars <= 2)%Z -> (max_chars < len text)%Z ->
  sentences_of text <> [] ->
  chunk_text text max_chars
  = map (fun s => s ++ lit ".") (sentences_of text).
Proof.
  intros Htiny Hlong Hsent.
  destruct (chunk_text_groups text max_chars Hlong) as [groups (Hg & Hf & Hcat & E)].
  destruct (truthy groups) eqn:T.
  2:{ apply truthy_false in T. subst groups. simpl in Hcat. congruence. }
  assert (Hone : Forall (fun g => exists s, g = [s]) groups).
  { apply Forall_forall. intros g Hgin.
    pose proof (proj1 (Forall_forall _ _) Hg g Hgin) as Hgood.
    pose proof (proj1 (Forall_forall _ _) Hf g Hgin) as [Hfit | Hlen].
    - pose proof (good_group_accumulated_len g Hgood). lia.
    - destruct Hgood as [Hne _].
      destruct g as [|s [|s2 g]]; [congruence | eauto | simpl in Hlen; lia]. }
  rewrite E, (singleton_groups groups Hone), Hcat, map_map. reflexivity.
Qed.

Lemma tiny_bound_one_per_sentence_witness :
  (-1 <= 2)%Z /\ (-1 < len (lit "a b. c! d"))%Z
  /\ sentences_of (lit "a b. c! d") <> []
  /\ chunk_text (lit "a b. c! d") (-1) = [lit "a b."; lit "c."; lit "d."].
Proof.
  assert (H1 : (-1 <= 2)%Z) by lia.
  assert (H2 : (-1 < len (lit "a b. c! d"))%Z) by reflexivity.
  assert (H3 : sentences_of (lit "a b. c! d") <> [])
    by (vm_compute; discriminate).
  split; [exact H1|]. split; [exact H2|]. split; [exact H3|].
  exact (tiny_bound_one_per_sentence (lit "a b. c! d") (-1) H1 H2 H3).
Defined.

(** ** Dictionaries, continued *)

Lemma get_set_other (V : Type) (k k' : str) (v : V) (d : dict V) :
  k' <> k -> get k' (set k v d) = get k' d.
Proof.
  intros Hne. induction d as [|[k0 v0] d IH]; simpl.
  - destruct (str_eqb k' k) eqn:E; [apply str_eqb_eq in E; contradiction|].
    reflexivity.
  - destruct (str_eqb k k0) eqn:E; simpl.
    + apply str_eqb_eq in E. subst k0.
      destruct (str_eqb k' k) eqn:E'; [apply str_eqb_eq in E'; contradiction|].
      reflexivity.
    + rewrite IH. reflexivity.
Qed.

Lemma get_del_other (V : Type) (k k' : str) (d : dict V) :
  k' <> k -> get k' (del k d) = get k' d.
Proof.
  intros Hne. induction d as [|[k0 v0] d IH]; simpl; [reflexivity|].
  destruct (str_eqb k k0) eqn:E; simpl.
  - apply str_eqb_eq in E. subst k0.
    destruct (str_eqb k' k) eqn:E'; [apply str_eqb_eq in E'; contradiction|].
    reflexivity.
  - rewrite IH. reflexivity.
Qed.

Lemma contains_set_mono (V : Type) (k k' : str) (v : V) (d : dict V) :
  contains k' d = true -> contains k' (set k v d) = true.
Proof.
  unfold contains. destruct (list_eq_dec N.eq_dec k' k) as [->|Hne].
  - rewrite get_set_same. reflexivity.
  - rewrite (get_set_other _ k k' v d Hne). auto.
Qed.

Lemma set_absent (V : Type) (k : str) (v : V) (d : dict V) :
  contains k d = false -> set k v d = d ++ [(k, v)].
Proof.
  unfold contains. induction d as [|[k0 v0] d IH]; simpl; [reflexivity|].
  destruct (str_eqb k k0); [discriminate|]. intros H. rewrite IH by exact H.
  reflexivity.
Qed.

Lemma keys_set_present (V : Type) (k : str) (v : V) (d : dict V) :
  contains k d = true -> keys (set k v d) = keys d.
Proof. intros H. rewrite keys_set, H. reflexivity. Qed.

Lemma len_del_present (V : Type) (k : str) (d : dict V) :
  contains k d = true -> len (del k d) = (len d - 1)%Z.
Proof.
  unfold contains, len. induction d as [|[k0 v0] d IH]; cbn [get del];
    [discriminate|].
  destruct (str_eqb k k0); cbn [List.length]; [lia|].
  intros H. specialize (IH H). lia.
Qed.

Lemma del_as_filter (V : Type) (k : str) (d : dict V) :
  NoDup (keys d) ->
  del k d = filter (fun kv => negb (str_eqb k (fst kv))) d.
Proof.
  induction d as [|[k0 v0] d IH]; simpl; [reflexivity|]. intros H.
  inversion H as [|? ? Hnot Hd]; subst.
  destruct (str_eqb k k0) eqn:E; simpl.
  - apply str_eqb_eq in E. subst k0. symmetry.
    clear - Hnot. induction d as [|[k1 v1] d IH]; simpl; [reflexivity|].
    simpl in Hnot. destruct (str_eqb k k1) eqn:E1.
    + apply str_eqb_eq in E1. symmetry in E1. tauto.
    + simpl. f_equal. apply IH. tauto.
  - f_equal. apply IH, Hd.
Qed.

Lemma fold_set_fresh (V : Type) (members d : dict V) :
  NoDup (keys (d ++ members)) ->
  fold_left (fun d kv => set (fst kv) (snd kv) d) members d = d ++ members.
Proof.
  revert d. induction members as [|[k v] members IH]; intros d H; simpl.
  - rewrite app_nil_r. reflexivity.
  - assert (Hk : contains k d = false).
    { unfold contains. destruct (get k d) eqn:G; [|reflexivity]. exfalso.
      assert (Hin : In k (keys d)).
      { destruct (in_dec (list_eq_dec N.eq_dec) k (keys d)) as [Hi|Hn];
          [exact Hi|]. apply get_None in Hn. congruence. }
      unfold keys in H. rewrite map_app in H. simpl in H.
      apply NoDup_remove_2 in H. apply H, in_or_app. left. exact Hin. }
    rewrite (set_absent _ k v d Hk), IH.
    + rewrite <- app_assoc. reflexivity.
    + rewrite <- app_assoc. exact H.
Qed.

Lemma get_fold_set (V : Type) (k : str) (members d : dict V) :
  get k (fold_left (fun d kv => set (fst kv) (snd kv) d) members d)
  = match get k (rev members) with
    | Some v => Some v
    | None => get k d
    end.
Proof.
  revert d. induction members as [|[k0 v0] members IH]; intros d; simpl.
  - reflexivity.
  - rewrite IH. clear IH.
    assert (Hrev : get k (rev members ++ [(k0, v0)])
                   = match get k (rev members) with
                     | Some v => Some v
                     | None => if str_eqb k k0 then Some v0 else None
                     end).
    { generalize (rev members) as l. induction l as [|[k1 v1] l IHl]; simpl.
      - reflexivity.
      - destruct (str_eqb k k1); [reflexivity | exact IHl]. }
    rewrite Hrev. destruct (get k (rev members)); [reflexivity|].
    destruct (str_eqb k k0) eqn:E.
    + apply str_eqb_eq in E. subst k0. apply get_set_same.
    + apply str_eqb_neq in E. apply get_set_other, E.
Qed.

(** ** Running a handler, continued *)

Lemma quiet_ret (A : Type) (a : A) : quiet (ret a).
Proof. intros st. reflexivity. Qed.

Lemma quiet_raise (A : Type) (e : exn) : quiet (raise A e).
Proof. intros st. reflexivity. Qed.

Lemma quiet_external (A : Type) (o : outcome A) : quiet (external o).
Proof. intros st. destruct o; reflexivity. Qed.

Lemma quiet_get_state : quiet get_state.
Proof. intros st. reflexivity. Qed.

Lemma quiet_bind (A B : Type) (m : M A) (k : A -> M B) :
  quiet m -> (forall a, quiet (k a)) -> quiet (bind m k).
Proof.
  intros Hm Hk st. unfold bind. specialize (Hm st).
  destruct (m st) as [[a|e] st1]; simpl in Hm; subst st1; [apply Hk|].
  reflexivity.
Qed.

Lemma quiet_run (A : Type) (m : M A) (st st' : State) (r : result A) :
  quiet m -> m st = (r, st') -> st' = st.
Proof. intros Hq H. specialize (Hq st). rewrite H in Hq. exact Hq. Qed.

Create HintDb quiet.

#[local] Hint Resolve quiet_ret quiet_raise quiet_external quiet_get_state
  : quiet.

Ltac quiet_steps :=
  repeat first
    [ solve [auto with quiet]
    | apply quiet_bind; [|intros ?]
    | match goal with
      | |- quiet (if ?b then _ else _) => destruct b
      | |- quiet (match ?x with _ => _ end) => destruct x
      end ].

Lemma quiet_getitem (voice_name : str) : quiet (getitem voice_name).
Proof. unfold getitem. quiet_steps. Qed.

Lemma quiet_infer_loop (env : GenerateEnv) (codes : ref_codes)
    (ref_text : option str) (text_chunks : list str) :
  forall k audio_segments,
    quiet (infer_loop env codes ref_text text_chunks k audio_segments).
Proof.
  induction text_chunks as [|chunk rest IH]; intros k acc; simpl.
  - auto with quiet.
  - apply quiet_bind; [auto with quiet | intros w; apply IH].
Qed.

#[local] Hint Resolve quiet_getitem quiet_infer_loop : quiet.







Lemma endswith_app (x suffix : str) : endswith (x ++ suffix) suffix = true.
Proof.
  induction x as [|c x IH]; simpl.
  - destruct suffix; simpl; rewrite str_eqb_refl; reflexivity.
  - rewrite IH. apply orb_true_r.
Qed.

(** ** Loading the registry *)

(** X7. When profiles.json repeats a name, the loaded registry holds the
    profile of its last occurrence; a name the file does not have is not
    in the registry. *)
Theorem load_last_member_wins (members : list (str * Profile))
    (disk : dict waveform) (voice_name : str) :
  get_voice voice_name (load_voice_profiles (Some members) disk)
  = get voice_name (rev members).
Proof.
  rewrite get_voice_get. unfold load_voice_profiles, of_members.
  cbn [voice_profiles]. rewrite get_fold_set.
  destruct (get voice_name (rev members)); reflexivity.
Qed.

Lemma of_members_distinct (V : Type) (d : dict V) :
  NoDup (keys d) -> of_members d = d.
Proof. intros H. unfold of_members. apply (fold_set_fresh _ d [] H). Qed.

(** ** Deleting *)

Lemma del_absent (V : Type) (k : str) (d : dict V) :
  contains k d = false -> del k d = d.
Proof.
  unfold contains. induction d as [|[k0 v0] d IH]; simpl; [reflexivity|].
  destruct (str_eqb k k0); [discriminate|]. intros H. rewrite IH by exact H.
  reflexivity.
Qed.

(** What [delete_voice] does for a voice it knows: the files are dealt
    with, the entry is removed, and the answer depends on the dump. *)
Lemma delete_voice_known (env : DeleteEnv) (voice_name : str) (st : State)
    (p : Profile) :
  get voice_name (voice_profiles st) = Some p ->
  exists disk,
    delete_voice env voice_name st
    = (match d_json_dump env with
       | Returns _ =>
           Ok {| dr_status := lit "success";
                 dr_message := lit "Voice '" ++ voice_name ++ lit "' deleted" |}
       | Raises message => Raise (Exception message)
       end,
       {| voice_profiles := del voice_name (voice_profiles st);
          wav_files := disk |}).
Proof.
  intros G. unfold delete_voice.
  rewrite (bind_run _ _ get_state _ st st st eq_refl).
  unfold contains. rewrite G. cbn [negb].
  rewrite (bind_run _ _ (ret tt) _ st st tt eq_refl).
  rewrite (bind_run _ _ _ _ _ _ _ (getitem_found voice_name p st G)).
  destruct (remove_files_caught env p st) as (st1 & E & Hvp).
  rewrite (bind_run _ _ _ _ _ _ _ E).
  exists (wav_files st1).
  unfold bind, modify, save_voice_profiles.
  destruct (d_json_dump env) as [[]|]; cbn; rewrite Hvp; reflexivity.
Qed.

(** X8. Deleting a name the registry does not have answers 404 and
    changes nothing, whatever the file system would do. *)
Theorem delete_unknown_is_404 (env : DeleteEnv) (voice_name : str)
    (st : State) :
  get_voice voice_name st = None ->
  delete_voice env voice_name st
  = (Raise (HTTPException 404
       (lit "Voice '" ++ voice_name ++ lit "' not found")), st).
Proof.
  rewrite get_voice_get. intros G. unfold delete_voice.
  rewrite (bind_run _ _ get_state _ st st st eq_refl).
  unfold contains. rewrite G. reflexivity.
Qed.

Lemma delete_unknown_is_404_witness :
  get_voice (lit "nobody") voice1_state = None
  /\ delete_voice
       {| d_remove_file := Returns tt; d_codes_exists := true;
          d_remove_codes := Returns tt; d_json_dump := Returns tt |}
       (lit "nobody") voice1_state
     = (Raise (HTTPException 404 (lit "Voice 'nobody' not found")),
        voice1_state).
Proof.
  assert (H : get_voice (lit "nobody") voice1_state = None) by reflexivity.
  split; [exact H|].
  exact (delete_unknown_is_404 _ (lit "nobody") voice1_state H).
Defined.

(** X9. Deleting a known voice succeeds whenever the registry can be
    written, even if removing its files fails: the entry is gone and the
    status count is one less. *)
Theorem delete_survives_file_errors (env : DeleteEnv) (voice_name : str)
    (st : State) (p : Profile) :
  registry_wf st ->
  get_voice voice_name st = Some p ->
  d_json_dump env = Returns tt ->
  fst (delete_voice env voice_name st)
  = Ok {| dr_status := lit "success";
          dr_message := lit "Voice '" ++ voice_name ++ lit "' deleted" |}
  /\ get_voice voice_name (snd (delete_voice env voice_name st)) = None
  /\ sr_voices (api_status (snd (delete_voice env voice_name st)))
     = (sr_voices (api_status st) - 1)%Z.
Proof.
  intros Hwf G Hdump. rewrite get_voice_get in G.
  destruct (delete_voice_known env voice_name st p G) as [disk E].
  rewrite E, Hdump. cbn [fst snd api_status sr_voices voice_profiles].
  split; [reflexivity|]. split.
  - rewrite get_voice_get. apply get_del_same, Hwf.
  - apply len_del_present. unfold contains. rewrite G. reflexivity.
Qed.

Lemma delete_survives_file_errors_witness :
  registry_wf voice1_state
  /\ get_voice (lit "voice1") voice1_state = Some voice1
  /\ fst (delete_voice
            {| d_remove_file := Raises (lit "Permission denied");
               d_codes_exists := true;
               d_remove_codes := Raises (lit "Permission denied");
               d_json_dump := Returns tt |}
            (lit "voice1") voice1_state)
     = Ok {| dr_status := lit "success";
             dr_message := lit "Voice 'voice1' deleted" |}.
Proof.
  assert (H1 : registry_wf voice1_state).
  { unfold registry_wf. simpl. constructor; [simpl; tauto | constructor]. }
  assert (H2 : get_voice (lit "voice1") voice1_state = Some voice1)
    by reflexivity.
  split; [exact H1|]. split; [exact H2|].
  exact (proj1 (delete_survives_file_errors
                  {| d_remove_file := Raises (lit "Permission denied");
                     d_codes_exists := true;
                     d_remove_codes := Raises (lit "Permission denied");
                     d_json_dump := Returns tt |}
                  (lit "voice1") voice1_state voice1 H1 H2 eq_refl)).
Defined.

(** X10. When the registry cannot be written, deleting a known voice
    ends with the exception of the dump, not with an HTTP error, and the
    entry is nevertheless gone from the registry in memory. *)
Theorem delete_dump_failure (env : DeleteEnv) (voice_name : str)
    (st : State) (p : Profile) (message : str) :
  registry_wf st ->
  get_voice voice_name st = Some p ->
  d_json_dump env = Raises message ->
  fst (delete_voice env voice_name st) = Raise (Exception message)
  /\ get_voice voice_name (snd (delete_voice env voice_name st)) = None.
Proof.
  intros Hwf G Hdump. rewrite get_voice_get in G.
  destruct (delete_voice_known env voice_name st p G) as [disk E].
  rewrite E, Hdump. cbn [fst snd]. split; [reflexivity|].
  rewrite get_voice_get. apply get_del_same, Hwf.
Qed.

Lemma delete_dump_failure_witness :
  registry_wf voice1_state
  /\ get_voice (lit "voice1") voice1_state = Some voice1
  /\ fst (delete_voice
            {| d_remove_file := Returns tt; d_codes_exists := false;
               d_remove_codes := Returns tt;
               d_json_dump := Raises (lit "No space left on device") |}
            (lit "voice1") voice1_state)
     = Raise (Exception (lit "No space left on device"))
  /\ get_voice (lit "voice1")
       (snd (delete_voice
               {| d_remove_file := Returns tt; d_codes_exists := false;
                  d_remove_codes := Returns tt;
                  d_json_dump := Raises (lit "No space left on device") |}
               (lit "voice1") voice1_state)) = None.
Proof.
  assert (H1 : registry_wf voice1_state).
  { unfold registry_wf. simpl. constructor; [simpl; tauto | constructor]. }
  assert (H2 : get_voice (lit "voice1") voice1_state = Some voice1)
    by reflexivity.
  split; [exact H1|]. split; [exact H2|].
  exact (delete_dump_failure
           {| d_remove_file := Returns tt; d_codes_exists := false;
              d_remove_codes := Returns tt;
              d_json_dump := Raises (lit "No space left on device") |}
           (lit "voice1") voice1_state voice1
           (lit "No space left on device") H1 H2 eq_refl).
Defined.

(** X11. A delete request, whatever its outcome, takes the entry of its
    name out of the listing and leaves the other entries as they were, in
    the same order. *)
Theorem delete_keeps_the_others (env : DeleteEnv) (voice_name : str)
    (st : State) :
  registry_wf st ->
  list_voices (snd (delete_voice env voice_name st))
  = filter (fun e => negb (str_eqb voice_name (ve_name e))) (list_voices st).
Proof.
  intros Hwf. unfold list_voices.
  rewrite (filter_map_swap _ _
             (fun e => negb (str_eqb voice_name (ve_name e)))).
  rewrite delete_voice_profiles.
  rewrite (filter_ext _ (fun kv => negb (str_eqb voice_name (fst kv)))).
  2:{ intros [k q]. reflexivity. }
  rewrite <- (del_as_filter _ voice_name (voice_profiles st) Hwf).
  destruct (contains voice_name (voice_profiles st)) eqn:C; [reflexivity|].
  rewrite (del_absent _ voice_name _ C). reflexivity.
Qed.

Lemma delete_keeps_the_others_witness :
  registry_wf
    {| voice_profiles := [(lit "a", voice1); (lit "b", voice1);
                          (lit "c", voice1)];
       wav_files := [] |}
  /\ map ve_name
       (list_voices
          (snd (delete_voice
                  {| d_remove_file := Returns tt; d_codes_exists := true;
                     d_remove_codes := Returns tt; d_json_dump := Returns tt |}
                  (lit "b")
                  {| voice_profiles := [(lit "a", voice1); (lit "b", voice1);
                                        (lit "c", voice1)];
                     wav_files := [] |})))
     = [lit "a"; lit "c"].
Proof.
  assert (H : registry_wf
                {| voice_profiles := [(lit "a", voice1); (lit "b", voice1);
                                      (lit "c", voice1)];
                   wav_files := [] |}).
  { unfold registry_wf. simpl.
    constructor; [simpl; intros [E|[E|[]]]; discriminate|].
    constructor; [simpl; intros [E|[]]; discriminate|].
    constructor; [simpl; tauto | constructor]. }
  split; [exact H|].
  rewrite (delete_keeps_the_others
             {| d_remove_file := Returns tt; d_codes_exists := true;
                d_remove_codes := Returns tt; d_json_dump := Returns tt |}
             (lit "b") _ H).
  reflexivity.
Defined.

(** ** The engine handle *)

(** X12. Once [init_tts] has returned an engine, every later call
    returns that same engine without constructing another one: neither
    the environment nor what the constructor would do matters then. *)
Theorem init_tts_constructs_once (Engine : Type) (environ environ' : dict str)
    (NeuTTSAir NeuTTSAir' : str -> str -> str -> str -> outcome Engine)
    (tts tts1 : option Engine) (engine : Engine) :
  init_tts environ NeuTTSAir tts = (Ok engine, tts1) ->
  tts1 = Some engine
  /\ init_tts environ' NeuTTSAir' tts1 = (Ok engine, tts1)
  /\ hr_tts_initialized (health_check environ' tts1 empty_state) = true.
Proof.
  unfold init_tts. intros H. destruct tts as [e0|].
  - inversion H; subst. auto.
  - destruct (NeuTTSAir _ _ _ _) as [e|message]; inversion H; subst. auto.
Qed.

Lemma init_tts_constructs_once_witness :
  init_tts [] (fun _ backbone _ codec => Returns (backbone, codec)) None
  = (Ok (lit "cpu", lit "cpu"), Some (lit "cpu", lit "cpu"))
  /\ init_tts [(lit "BACKBONE_DEVICE", lit "cuda")]
       (fun _ _ _ _ => Raises (lit "out of memory"))
       (Some (lit "cpu", lit "cpu"))
     = (Ok (lit "cpu", lit "cpu"), Some (lit "cpu", lit "cpu")).
Proof.
  assert (H : init_tts [] (fun _ backbone _ codec => Returns (backbone, codec))
                None
              = (Ok (lit "cpu", lit "cpu"), Some (lit "cpu", lit "cpu")))
    by reflexivity.
  split; [exact H|].
  exact (proj1 (proj2 (init_tts_constructs_once (str * str) []
                         [(lit "BACKBONE_DEVICE", lit "cuda")]
                         (fun _ backbone _ codec => Returns (backbone, codec))
                         (fun _ _ _ _ => Raises (lit "out of memory"))
                         None _ _ H))).
Defined.

Lemma quiet_preserves (A : Type) (P : State -> Prop) (m : M A) :
  quiet m -> preserves P m.
Proof. intros Hq st H. rewrite (Hq st). exact H. Qed.

Section MoreHandlerFacts.

Variable lower : str -> str.
Variable http_exception_str : Z -> str -> str.
Variable joinpath : str -> str -> str.
Variable str_of_list : list str -> str.

#[local] Abbreviation clone := (clone_voice lower http_exception_str joinpath).
#[local] Abbreviation generate :=
  (generate_speech http_exception_str joinpath str_of_list).
#[local] Abbreviation reach :=
  (reachable lower http_exception_str joinpath str_of_list).

(** X13. Loading the registry of a reachable state from its own
    members, as written in iteration order, gives the state back: same
    profiles in the same order. *)
Theorem saved_registry_reloads (st : State) :
  reach st ->
  load_voice_profiles (Some (voice_profiles st)) (wav_files st) = st.
Proof.
  intros Hreach.
  pose proof (reachable_wf lower http_exception_str joinpath str_of_list
                st Hreach) as Hwf.
  unfold load_voice_profiles. rewrite (of_members_distinct _ _ Hwf).
  destruct st. reflexivity.
Qed.

(** ** Cloning *)

Lemma preserves_clone_if (P : State -> Prop) (env : CloneEnv)
    (filename voice_name : str) (ref_text : option str) :
  (forall st path data,
      P st -> P {| voice_profiles := voice_profiles st;
                   wav_files := set path data (wav_files st) |}) ->
  (forall st p,
      P st -> P {| voice_profiles := set voice_name p (voice_profiles st);
                   wav_files := wav_files st |}) ->
  preserves P (clone env filename voice_name ref_text).
Proof.
  intros Hwav Hreg.
  unfold clone_voice, sf_write, set_voice_profile, np_max, save_voice_profiles.
  preserve; apply preserves_modify; auto.
Qed.

(** X14. Whatever goes wrong in a clone request, the answer has status
    500 and a detail that starts with "Error cloning voice: ". *)
Theorem clone_failures_are_500 (env : CloneEnv) (filename voice_name : str)
    (ref_text : option str) (st : State) (e : exn) :
  fst (clone env filename voice_name ref_text st) = Raise e ->
  exists cause,
    e = HTTPException 500 (lit "Error cloning voice: " ++ cause).
Proof.
  unfold clone_voice, try_except.
  match goal with
  | |- fst (let (_, _) := ?body st in _) = _ -> _ =>
      destruct (body st) as [[a|e0] st1]
  end; unfold raise; cbn [fst]; intros H; [discriminate|].
  inversion H. exists (exn_str http_exception_str e0). reflexivity.
Qed.

(** X15. A clone request, whatever its outcome, leaves the profiles
    registered under other names as they were. *)
Theorem clone_keeps_the_others (env : CloneEnv)
    (filename voice_name other : str) (ref_text : option str) (st : State) :
  other <> voice_name ->
  get_voice other (snd (clone env filename voice_name ref_text st))
  = get_voice other st.
Proof.
  intros Hne. rewrite !get_voice_get.
  apply (preserves_clone_if
           (fun s => get other (voice_profiles s)
                     = get other (voice_profiles st))
           env filename voice_name ref_text); [| |reflexivity].
  - intros s path data H. exact H.
  - intros s p H. cbn [voice_profiles].
    rewrite (get_set_other _ voice_name other p _ Hne). exact H.
Qed.

(** X16. A clone request never removes a .wav file: over an existing
    name too, the file of the profile it replaces stays on disk. *)
Theorem clone_never_removes_wav (env : CloneEnv) (filename voice_name : str)
    (ref_text : option str) (st : State) (path : str) :
  contains path (wav_files st) = true ->
  contains path (wav_files (snd (clone env filename voice_name ref_text st)))
  = true.
Proof.
  intros H.
  apply (preserves_clone_if (fun s => contains path (wav_files s) = true)
           env filename voice_name ref_text); [| |exact H].
  - intros s p data Hs. cbn [wav_files]. apply contains_set_mono, Hs.
  - intros s p Hs. exact Hs.
Qed.


(** X18. When every step up to the registry update returns and the dump
    of the registry fails, the answer is status 500 with the message of
    the dump, but the profile is registered in memory and can be used. *)
Theorem clone_dump_failure (voice_id : str) (audio : waveform)
    (codes : ref_codes) (message filename voice_name : str)
    (ref_text : option str) (st : State) :
  endswith_any (lower filename) audio_suffixes = true ->
  audio <> [] ->
  let env := {| uuid4 := voice_id;
                write_temp := Returns tt;
                librosa_load := Returns audio;
                c_sf_write := Returns tt;
                c_os_remove := Returns tt;
                c_init_tts := Returns tt;
                encode_reference := Returns codes;
                torch_save := Returns tt;
                c_json_dump := Raises message |} in
  fst (clone env filename voice_name ref_text st)
  = Raise (HTTPException 500 (lit "Error cloning voice: " ++ message))
  /\ get_voice voice_name (snd (clone env filename voice_name ref_text st))
     = Some {| id := voice_id;
               file := joinpath VOICES_DIR (voice_id ++ lit ".wav");
               codes_file := joinpath VOICES_DIR (voice_id ++ lit "_codes.pt");
               reference_text := ref_text;
               original_filename := filename |}.
Proof.
  intros Hext Hne env.
  destruct audio as [|x xs]; [congruence|].
  rewrite get_voice_get.
  unfold clone_voice, try_except, bind at 1. rewrite Hext.
  cbn. split; [reflexivity | apply get_set_same].
Qed.

(** X19. A successful clone under a name the registry does not have
    adds its entry at the end of the listing, and the status count is one
    more. *)
Theorem clone_new_name_appends (env : CloneEnv) (filename voice_name : str)
    (ref_text : option str) (st st' : State) (resp : CloneResponse) :
  get_voice voice_name st = None ->
  clone env filename voice_name ref_text st = (Ok resp, st') ->
  list_voices st'
  = list_voices st
    ++ [ {| ve_name := voice_name;
            ve_id := uuid4 env;
            ve_original_file := filename;
            ve_has_reference_text :=
              match ref_text with Some _ => true | None => false end |} ]
  /\ sr_voices (api_status st') = (sr_voices (api_status st) + 1)%Z.
Proof.
  rewrite get_voice_get. intros Hnew Hclone.
  pose proof (clone_voice_ok lower http_exception_str joinpath
                env filename voice_name ref_text st st' resp Hclone) as Hvp.
  assert (C : contains voice_name (voice_profiles st) = false)
    by (unfold contains; rewrite Hnew; reflexivity).
  rewrite (set_absent _ _ _ _ C) in Hvp.
  unfold list_voices, api_status. cbn [sr_voices]. rewrite Hvp. split.
  - rewrite map_app. reflexivity.
  - rewrite len_app. reflexivity.
Qed.

(** X20. A successful clone under a name the registry already has keeps
    the names of the listing and their order, and the status count. *)
Theorem clone_overwrite_keeps_place (env : CloneEnv)
    (filename voice_name : str) (ref_text : option str) (st st' : State)
    (resp : CloneResponse) (old : Profile) :
  get_voice voice_name st = Some old ->
  clone env filename voice_name ref_text st = (Ok resp, st') ->
  map ve_name (list_voices st') = map ve_name (list_voices st)
  /\ sr_voices (api_status st') = sr_voices (api_status st).
Proof.
  rewrite get_voice_get. intros Hold Hclone.
  pose proof (clone_voice_ok lower http_exception_str joinpath
                env filename voice_name ref_text st st' resp Hclone) as Hvp.
  assert (C : contains voice_name (voice_profiles st) = true)
    by (unfold contains; rewrite Hold; reflexivity).
  assert (K : keys (voice_profiles st') = keys (voice_profiles st)).
  { rewrite Hvp. apply keys_set_present, C. }
  split.
  - rewrite !list_voices_names. exact K.
  - unfold api_status, len. cbn [sr_voices]. f_equal.
    rewrite <- (length_map fst (voice_profiles st')).
    rewrite <- (length_map fst (voice_profiles st)).
    unfold keys in K. rewrite K. reflexivity.
Qed.

(** ** Generating *)

Lemma quiet_pick (wavs : list waveform) :
  quiet (if (1 <? len wavs)%Z then ret (List.concat wavs)
         else match wavs with
              | w :: _ => ret w
              | [] => raise waveform (Exception (lit "list index out of range"))
              end).
Proof. quiet_steps. Qed.

(** What a successful [generate_speech] did. *)
Lemma generate_speech_ok (env : GenerateEnv) (text voice_name : str)
    (output_filename : option str) (st st' : State) (resp : FileResponse) :
  generate env text voice_name output_filename st = (Ok resp, st') ->
  let name := resolve_output_filename env output_filename in
  exists wav,
    resp = {| fr_path := joinpath OUTPUTS_DIR name;
              fr_media_type := lit "audio/wav";
              fr_filename := name |}
    /\ st' = {| voice_profiles := voice_profiles st;
                wav_files := set (joinpath OUTPUTS_DIR name) wav (wav_files st) |}.
Proof.
  intros H name. unfold generate_speech, try_except in H.
  match type of H with
  | (let (_, _) := ?body st in _) = _ =>
      destruct (body st) as [[a|e] st1] eqn:Hb
  end.
  2:{ destruct e; discriminate. }
  inversion H; subst a st1; clear H.
  apply bind_ok in Hb. destruct Hb as (st0 & s1 & H1 & Hb).
  inversion H1; subst st0 s1; clear H1.
  apply bind_ok in Hb. destruct Hb as (x2 & s2 & H2 & Hb).
  assert (s2 = st) as ->.
  { eapply quiet_run; [|exact H2]. quiet_steps. }
  clear H2.
  apply bind_ok in Hb. destruct Hb as (x3 & s3 & H3 & Hb).
  apply external_ok in H3. destruct H3 as [_ ->].
  apply bind_ok in Hb. destruct Hb as (profile & s4 & H4 & Hb).
  pose proof (quiet_run _ _ _ _ _ (quiet_getitem voice_name) H4). subst s4.
  apply bind_ok in Hb. destruct Hb as (codes & s5 & H5 & Hb).
  apply external_ok in H5. destruct H5 as [_ ->].
  apply bind_ok in Hb. destruct Hb as (segs & s6 & H6 & Hb).
  pose proof (quiet_run _ _ _ _ _ (quiet_infer_loop _ _ _ _ _ _) H6). subst s6.
  apply bind_ok in Hb. destruct Hb as (wav & s7 & H7 & Hb).
  pose proof (quiet_run _ _ _ _ _ (quiet_pick segs) H7). subst s7.
  apply bind_ok in Hb. destruct Hb as (x8 & s8 & H8 & Hb).
  unfold sf_write in H8. apply bind_ok in H8. destruct H8 as (x & s & Hx & H8).
  apply external_ok in Hx. destruct Hx as [_ ->].
  unfold modify in H8. inversion H8; subst x8 s8; clear H8.
  unfold ret in Hb. inversion Hb. exists wav. split; reflexivity.
Qed.

Lemma preserves_generate_if (P : State -> Prop) (env : GenerateEnv)
    (text voice_name : str) (output_filename : option str) :
  (forall st path data,
      P st -> P {| voice_profiles := voice_profiles st;
                   wav_files := set path data (wav_files st) |}) ->
  preserves P (generate env text voice_name output_filename).
Proof.
  intros Hwav.
  assert (Hloop : forall codes ref_text chunks k acc,
             preserves P (infer_loop env codes ref_text chunks k acc))
    by (intros; apply quiet_preserves, quiet_infer_loop).
  assert (Hitem : preserves P (getitem voice_name))
    by (apply quiet_preserves, quiet_getitem).
  unfold generate_speech, sf_write.
  preserve; apply preserves_modify; auto.
Qed.

(** X21. A generate request, whatever its outcome, leaves the registry
    as it was and removes no .wav file. *)
Theorem generate_keeps_registry (env : GenerateEnv) (text voice_name : str)
    (output_filename : option str) (st : State) :
  voice_profiles (snd (generate env text voice_name output_filename st))
  = voice_profiles st
  /\ forall path,
       contains path (wav_files st) = true ->
       contains path
         (wav_files (snd (generate env text voice_name output_filename st)))
       = true.
Proof.
  split.
  - apply (preserves_generate_if
             (fun s => voice_profiles s = voice_profiles st)
             env text voice_name output_filename); [|reflexivity].
    intros s path data H. exact H.
  - intros path H.
    apply (preserves_generate_if
             (fun s => contains path (wav_files s) = true)
             env text voice_name output_filename); [|exact H].
    intros s p data Hs. cbn [wav_files]. apply contains_set_mono, Hs.
Qed.


(** X23. A successful generate request answers with a file name that
    ends in ".wav", a path under the outputs directory made of that name,
    and the media type audio/wav; the file is on disk afterwards. *)
Theorem generate_answers_with_wav (env : GenerateEnv) (text voice_name : str)
    (output_filename : option str) (st st' : State) (resp : FileResponse) :
  generate env text voice_name output_filename st = (Ok resp, st') ->
  endswith (fr_filename resp) (lit ".wav") = true
  /\ fr_path resp = joinpath OUTPUTS_DIR (fr_filename resp)
  /\ fr_media_type resp = lit "audio/wav"
  /\ contains (fr_path resp) (wav_files st') = true.
Proof.
  intros H.
  destruct (generate_speech_ok env text voice_name output_filename st st' resp H)
    as [wav [-> ->]].
  cbn [fr_filename fr_path fr_media_type wav_files].
  split; [|split; [reflexivity | split; [reflexivity|]]].
  - unfold resolve_output_filename. destruct output_filename as [name|].
    + destruct (endswith name (lit ".wav")) eqn:E; cbn [negb];
        [exact E | apply endswith_app].
    + apply endswith_app.
  - unfold contains. rewrite get_set_same. reflexivity.
Qed.


End MoreHandlerFacts.

(** ** The further theorems on concrete requests *)

Lemma saved_registry_reloads_witness :
  let st := snd (clone_voice ascii_lower starlette_str posix_join
                   (clone_env_ok (lit "id1") [f32_half] [7%Z])
                   (lit "me.wav") (lit "voice1") None empty_state) in
  reachable ascii_lower starlette_str posix_join repr_list st
  /\ load_voice_profiles (Some (voice_profiles st)) (wav_files st) = st.
Proof.
  intros st.
  assert (H : reachable ascii_lower starlette_str posix_join repr_list st).
  { eapply reachable_step.
    - exact (reachable_start ascii_lower starlette_str posix_join repr_list
               None []).
    - exact (step_clone ascii_lower starlette_str posix_join repr_list
               (clone_env_ok (lit "id1") [f32_half] [7%Z])
               (lit "me.wav") (lit "voice1") None empty_state). }
  split; [exact H|].
  exact (saved_registry_reloads ascii_lower starlette_str posix_join repr_list
           st H).
Defined.

Lemma clone_failures_are_500_witness :
  let env := {| uuid4 := lit "id1";
                write_temp := Returns tt;
                librosa_load := Returns [f32_half];
                c_sf_write := Returns tt;
                c_os_remove := Returns tt;
                c_init_tts := Returns tt;
                encode_reference := Raises (lit "codec not loaded");
                torch_save := Returns tt;
                c_json_dump := Returns tt |} in
  fst (clone_voice ascii_lower starlette_str posix_join env
         (lit "me.wav") (lit "voice1") None empty_state)
  = Raise (HTTPException 500 (lit "Error cloning voice: codec not loaded"))
  /\ exists cause,
       HTTPException 500 (lit "Error cloning voice: codec not loaded")
       = HTTPException 500 (lit "Error cloning voice: " ++ cause).
Proof.
  intros env.
  assert (H : fst (clone_voice ascii_lower starlette_str posix_join env
                     (lit "me.wav") (lit "voice1") None empty_state)
              = Raise (HTTPException 500
                  (lit "Error cloning voice: codec not loaded")))
    by reflexivity.
  split; [exact H|].
  exact (clone_failures_are_500 ascii_lower starlette_str posix_join env
           (lit "me.wav") (lit "voice1") None empty_state _ H).
Defined.

Lemma clone_keeps_the_others_witness :
  lit "voice1" <> lit "voice2"
  /\ get_voice (lit "voice1")
       (snd (clone_voice ascii_lower starlette_str posix_join
               (clone_env_ok (lit "id2") [f32_one] [8%Z])
               (lit "you.ogg") (lit "voice2") None voice1_state))
     = Some voice1.
Proof.
  assert (H : lit "voice1" <> lit "voice2") by discriminate.
  split; [exact H|].
  rewrite (clone_keeps_the_others ascii_lower starlette_str posix_join
             (clone_env_ok (lit "id2") [f32_one] [8%Z])
             (lit "you.ogg") (lit "voice2") (lit "voice1") None voice1_state H).
  reflexivity.
Defined.

Lemma clone_never_removes_wav_witness :
  let st := {| voice_profiles := [(lit "voice1", voice1)];
               wav_files := [(lit "/app/voices/id1.wav", [f32_one])] |} in
  contains (lit "/app/voices/id1.wav") (wav_files st) = true
  /\ contains (lit "/app/voices/id1.wav")
       (wav_files
          (snd (clone_voice ascii_lower starlette_str posix_join
                  (clone_env_ok (lit "id2") [f32_half] [8%Z])
                  (lit "again.wav") (lit "voice1") None st))) = true.
Proof.
  intros st.
  assert (H : contains (lit "/app/voices/id1.wav") (wav_files st) = true)
    by reflexivity.
  split; [exact H|].
  exact (clone_never_removes_wav ascii_lower starlette_str posix_join
           (clone_env_ok (lit "id2") [f32_half] [8%Z])
           (lit "again.wav") (lit "voice1") None st
           (lit "/app/voices/id1.wav") H).
Defined.


Lemma clone_dump_failure_witness :
  endswith_any (ascii_lower (lit "me.wav")) audio_suffixes = true
  /\ [f32_half] <> []
  /\ get_voice (lit "voice1")
       (snd (clone_voice ascii_lower starlette_str posix_join
               {| uuid4 := lit "id1";
                  write_temp := Returns tt;
                  librosa_load := Returns [f32_half];
                  c_sf_write := Returns tt;
                  c_os_remove := Returns tt;
                  c_init_tts := Returns tt;
                  encode_reference := Returns [7%Z];
                  torch_save := Returns tt;
                  c_json_dump := Raises (lit "Read-only file system") |}
               (lit "me.wav") (lit "voice1") None empty_state))
     = Some {| id := lit "id1";
               file := lit "/app/voices/id1.wav";
               codes_file := lit "/app/voices/id1_codes.pt";
               reference_text := None;
               original_filename := lit "me.wav" |}.
Proof.
  assert (H1 : endswith_any (ascii_lower (lit "me.wav")) audio_suffixes
               = true) by reflexivity.
  assert (H2 : [f32_half] <> []) by discriminate.
  split; [exact H1|]. split; [exact H2|].
  exact (proj2 (clone_dump_failure ascii_lower starlette_str posix_join
                  (lit "id1") [f32_half] [7%Z] (lit "Read-only file system")
                  (lit "me.wav") (lit "voice1") None empty_state H1 H2)).
Defined.

Lemma clone_new_name_appends_witness :
  get_voice (lit "voice2") voice1_state = None
  /\ map ve_name
       (list_voices
          (snd (clone_voice ascii_lower starlette_str posix_join
                  (clone_env_ok (lit "id2") [f32_one] [8%Z])
                  (lit "you.ogg") (lit "voice2") None voice1_state)))
     = [lit "voice1"; lit "voice2"].
Proof.
  assert (H : get_voice (lit "voice2") voice1_state = None) by reflexivity.
  split; [exact H|].
  exact (f_equal (map ve_name)
           (proj1 (clone_new_name_appends ascii_lower starlette_str posix_join
                     (clone_env_ok (lit "id2") [f32_one] [8%Z])
                     (lit "you.ogg") (lit "voice2") None voice1_state _ _
                     H eq_refl))).
Defined.

Lemma clone_overwrite_keeps_place_witness :
  let st := {| voice_profiles := [(lit "a", voice1); (lit "b", voice1)];
               wav_files := [] |} in
  get_voice (lit "a") st = Some voice1
  /\ map ve_name
       (list_voices
          (snd (clone_voice ascii_lower starlette_str posix_join
                  (clone_env_ok (lit "id2") [f32_one] [8%Z])
                  (lit "new.mp3") (lit "a") None st)))
     = [lit "a"; lit "b"].
Proof.
  intros st.
  assert (H : get_voice (lit "a") st = Some voice1) by reflexivity.
  split; [exact H|].
  exact (proj1 (clone_overwrite_keeps_place ascii_lower starlette_str
                  posix_join
                  (clone_env_ok (lit "id2") [f32_one] [8%Z])
                  (lit "new.mp3") (lit "a") None st _ _ voice1
                  H eq_refl)).
Defined.


Lemma generate_answers_with_wav_witness :
  generate_speech starlette_str posix_join repr_list engine_ok
    (lit "Hello world.") (lit "voice1") None voice1_state
  = (Ok {| fr_path := lit "/app/outputs/out1.wav";
           fr_media_type := lit "audio/wav";
           fr_filename := lit "out1.wav" |},
     {| voice_profiles := [(lit "voice1", voice1)];
        wav_files := [(lit "/app/outputs/out1.wav", [f32_one])] |})
  /\ endswith (lit "out1.wav") (lit ".wav") = true.
Proof.
  assert (H : generate_speech starlette_str posix_join repr_list engine_ok
                (lit "Hello world.") (lit "voice1") None voice1_state
              = (Ok {| fr_path := lit "/app/outputs/out1.wav";
                       fr_media_type := lit "audio/wav";
                       fr_filename := lit "out1.wav" |},
                 {| voice_profiles := [(lit "voice1", voice1)];
                    wav_files := [(lit "/app/outputs/out1.wav", [f32_one])] |}))
    by (vm_compute; reflexivity).
  split; [exact H|].
  exact (proj1 (generate_answers_with_wav starlette_str posix_join repr_list
                  engine_ok (lit "Hello world.") (lit "voice1") None
                  voice1_state _ _ H)).
Defined.

